(** * The uWebSockets example of graphql-yoga: request adapter, response
      writer and graphql-ws bridge (examples/uwebsockets/src/app.ts)

    The file embeds the two handlers of [app.ts]:
    - [yogaHandler], which turns a socket-level request into the
      arguments of [yoga.fetch] and drains the computed response back
      onto the socket;
    - [wsHandler], the behaviour handed to graphql-ws, whose
      [onSubscribe] resolves the enveloped functions for every
      operation.

    The socket layer, node's [Readable] and the query engine are
    collaborators of the handlers; they appear as small models of the
    part of their interface that the handlers use. *)

From Stdlib Require Import NArith Ascii DecimalString DecimalN Strings.Byte.
From stdpp Require Import gmap strings list.


(** ** Strings *)

Module Str.

(** ASCII lower-casing, as the socket layer applies it to verbs and
    header names. *)
Definition lower_ascii (c : ascii) : ascii :=
  let n := N_of_ascii c in
  if ((65 <=? n) && (n <=? 90))%N then ascii_of_N (n + 32) else c.

Fixpoint lower (s : string) : string :=
  match s with
  | EmptyString => EmptyString
  | String c s' => String (lower_ascii c) (lower s')
  end.

Definition is_lower (s : string) : Prop := lower s = s.

(** Template-literal rendering of a non-negative integer. *)
Definition of_N (n : N) : string := NilEmpty.string_of_uint (N.to_uint n).

(** JavaScript [===] on two strings. *)
Definition eqb (a b : string) : bool := bool_decide (a = b).

End Str.

(** ** The socket layer (uWebSockets.js) *)

Module uWS.

(** What arrived on the wire for one request. *)
Record HttpRequest := {
  wire_method : string;
  wire_url : string;
  wire_headers : list (string * string)
}.

(** [req.getMethod()]: the verb, lower-cased. *)
Definition getMethod (req : HttpRequest) : string :=
  Str.lower (wire_method req).

(** [req.getUrl()]. *)
Definition getUrl (req : HttpRequest) : string := wire_url req.

(** The pairs [req.forEach] hands to its callback, in wire order; the
    header names are lower-cased. *)
Definition entries (req : HttpRequest) : list (string * string) :=
  map (fun kv => (Str.lower (fst kv), snd kv)) (wire_headers req).

(** [req.forEach(cb)] with a callback that updates a state. *)
Definition forEach {S : Type} (req : HttpRequest)
    (cb : string -> string -> S -> S) (s : S) : S :=
  foldl (fun acc kv => cb (fst kv) (snd kv) acc) s (entries req).

End uWS.

(** A sequence of bytes, by value. *)
Definition chunk := list Byte.byte.

(** ** The transport's memory and the views on it

    The socket layer hands [onData] an [ArrayBuffer] on memory that it
    owns and may rewrite or invalidate once the callback has returned.
    [Buffer.from(arrayBuffer)] does not copy: the [Buffer] it returns is a
    view on the same memory, and shows whatever that memory holds at the
    time it is read. *)

Abbreviation memory := (list chunk) (only parsing).

Record ArrayBuffer := {
  address : nat;
  byteLength : nat
}.

Record Buffer := {
  buf_address : nat;
  buf_length : nat
}.

(** [Buffer.from(chunk)] for an [ArrayBuffer]. *)
Definition Buffer_from (c : ArrayBuffer) : Buffer :=
  {| buf_address := address c; buf_length := byteLength c |}.

(** The bytes a view shows, given what the memory holds now. *)
Definition view_bytes (mem : memory) (b : Buffer) : chunk :=
  take (buf_length b) (default [] (mem !! buf_address b)).

(** ** node:stream's Readable, as [yogaHandler] uses it

    [new Readable({ read() {} })] is a byte-mode stream fed only through
    [push].  A zero-length chunk adds nothing to the buffer; [push(null)]
    marks end-of-stream and is ignored once the stream has ended; a
    data-carrying chunk pushed after end-of-stream destroys the stream
    with the push-after-EOF error unless it is destroyed already. *)

Module Readable.

Record t := {
  buffer : list Buffer;
  ended : bool;
  destroyed : bool;
  errored : bool
}.

Definition new : t :=
  {| buffer := []; ended := false; destroyed := false; errored := false |}.

Definition push (c : option Buffer) (r : t) : t :=
  match c with
  | None =>
      if ended r then r
      else {| buffer := buffer r; ended := true;
              destroyed := destroyed r; errored := errored r |}
  | Some b =>
      if buf_length b =? 0 then r
      else if ended r then
        if destroyed r then r
        else {| buffer := buffer r; ended := true;
                destroyed := true; errored := true |}
      else if destroyed r || errored r then r
      else {| buffer := buffer r ++ [b]; ended := false;
              destroyed := destroyed r; errored := errored r |}
  end.

(** What a consumer sees: the bytes of the views it was handed, copied
    out when it read them, the end of the stream, or an error. *)
Inductive observation :=
| ObsData (views : list Buffer) (bytes : chunk)
| ObsEnd
| ObsError.

(** The consumer's side of an async iteration over the stream. *)
Record consumer := {
  log : list observation;
  finished : bool
}.

Definition idle : consumer := {| log := []; finished := false |}.

(** One turn of the consumer's loop ([stream.read()] in paused mode).
    A pending error is thrown.  Otherwise everything buffered is returned
    as one piece, copied from the memory as it is now; when that empties
    a stream that has ended, the stream ends and destroys itself.
    Otherwise a stream that has ended reports its end (and is destroyed).
    Otherwise the consumer keeps waiting. *)
Definition read (mem : memory) (r : t) (k : consumer) : t * consumer :=
  if finished k then (r, k)
  else if errored r then
    (r, {| log := log k ++ [ObsError]; finished := true |})
  else
    match buffer r with
    | _ :: _ =>
        ({| buffer := []; ended := ended r;
            destroyed := destroyed r || ended r; errored := errored r |},
         {| log := log k
                   ++ [ObsData (buffer r)
                         (concat (map (view_bytes mem) (buffer r)))];
            finished := false |})
    | [] =>
        if ended r then
          ({| buffer := []; ended := true;
              destroyed := true; errored := errored r |},
           {| log := log k ++ [ObsEnd]; finished := true |})
        else (r, k)
    end.

(** The bytes a log delivered, in order. *)
Fixpoint bytes_of (l : list observation) : chunk :=
  match l with
  | [] => []
  | ObsData _ b :: l' => b ++ bytes_of l'
  | _ :: l' => bytes_of l'
  end.

(** The views a log delivered, in order. *)
Fixpoint views_of (l : list observation) : list Buffer :=
  match l with
  | [] => []
  | ObsData vs _ :: l' => vs ++ views_of l'
  | _ :: l' => views_of l'
  end.

Definition is_end (o : observation) : bool :=
  match o with ObsEnd => true | _ => false end.

Definition is_error (o : observation) : bool :=
  match o with ObsError => true | _ => false end.

Definition count_ends (l : list observation) : nat :=
  length (filter (fun o => is_end o = true) l).

Definition count_errors (l : list observation) : nat :=
  length (filter (fun o => is_error o = true) l).

End Readable.

(** ** The request adapter (app.ts, lines 47-80) *)

(** Streams live in a store; a reference is an index into it.  The
    [body] variable of [yogaHandler], the two socket callbacks and the
    [body] field given to [yoga.fetch] all hold the same reference. *)
Abbreviation ref := nat (only parsing).
Abbreviation store := (list Readable.t) (only parsing).

Definition push_at (body : ref) (c : option Buffer) (h : store) : store :=
  match h !! body with
  | Some r => <[body := Readable.push c r]> h
  | None => h
  end.

(** The callbacks registered on the socket-level response. *)
Record HttpResponse := {
  dataHandler : option (ArrayBuffer -> bool -> store -> store);
  abortHandler : option (store -> store)
}.

(** The second argument of [yoga.fetch]. *)
Record RequestInit := {
  init_method : string;
  init_headers : gmap string string;
  init_body : option ref
}.

(** The arguments of [yoga.fetch]: the URL, the request init and the
    server context [{ req, res }]. *)
Record FetchArgs := {
  fetch_url : string;
  fetch_init : RequestInit;
  fetch_context : uWS.HttpRequest * HttpResponse
}.

(** [function (chunk, isLast) { body.push(Buffer.from(chunk)); if (isLast) body.push(null) }] *)
Definition onData_callback (body : ref) (c : ArrayBuffer) (isLast : bool)
    (h : store) : store :=
  let h := push_at body (Some (Buffer_from c)) h in
  if isLast then push_at body None h else h.

(** [function () { body.push(null) }] *)
Definition onAborted_callback (body : ref) (h : store) : store :=
  push_at body None h.

(** [method !== 'get' && method !== 'head'] *)
Definition carries_body (method : string) : bool :=
  negb (Str.eqb method "get") && negb (Str.eqb method "head").

(** [o[key] = value] with a string value, on an object created by
    [{}]: the own property [key] is written, except that the name
    [__proto__] reaches the prototype's setter, which ignores a string and
    leaves the object as it was. *)
Definition set_property (key value : string) (o : gmap string string)
    : gmap string string :=
  if Str.eqb key "__proto__" then o else <[key := value]> o.

(** [const headers = {}; req.forEach((key, value) => { headers[key] = value })] *)
Definition copy_headers (req : uWS.HttpRequest) : gmap string string :=
  uWS.forEach req (fun key value headers => set_property key value headers) ∅.

(** The synchronous prefix of [yogaHandler], up to the call of
    [yoga.fetch]: the arguments of that call, the callbacks left on the
    socket-level response, and the store. *)
Definition adapt (req : uWS.HttpRequest) (h : store)
    : FetchArgs * HttpResponse * store :=
  let method := uWS.getMethod req in
  let '(body, res, h) :=
    if carries_body method then
      let body := length h in
      let h := h ++ [Readable.new] in
      (Some body,
       {| dataHandler := Some (onData_callback body);
          abortHandler := Some (onAborted_callback body) |},
       h)
    else
      (None, {| dataHandler := None; abortHandler := None |}, h) in
  let headers := copy_headers req in
  ({| fetch_url := uWS.getUrl req;
      fetch_init := {| init_method := method;
                       init_headers := headers;
                       init_body := body |};
      fetch_context := (req, res) |},
   res, h).

(** The value last written for [k] in a list of pairs. *)
Fixpoint last_written (k : string) (kvs : list (string * string))
    : option string :=
  match kvs with
  | [] => None
  | (k', v) :: rest =>
      match last_written k rest with
      | Some v' => Some v'
      | None => if Str.eqb k' k then Some v else None
      end
  end.

(** ** The request body while [yoga.fetch] is pending

    The socket layer runs the registered callbacks as chunks arrive or
    the transport aborts; in between, the consumer of [init.body] takes
    its turns.  The memory of a chunk is only the chunk's during the
    callback: afterwards the transport may reuse it.  [SockReuse a c] is
    that: the memory behind the chunk numbered [a] now holds [c] (a view
    shows at most its own length of it; an empty [c] is memory that was
    taken away). *)

Inductive event :=
| SockData (c : chunk) (isLast : bool)
| SockAborted
| SockReuse (a : nat) (c : chunk)
| Pull.

(** What the events of one request act on: the store of streams, the
    memory behind the chunks delivered for this request (numbered in the
    order of delivery) and the consumer of its body. *)
Record world := {
  w_store : store;
  w_memory : memory;
  w_consumer : Readable.consumer
}.

(** The [ArrayBuffer] of a chunk that is delivered next. *)
Definition next_chunk (mem : memory) (c : chunk) : ArrayBuffer :=
  {| address := length mem; byteLength := length c |}.

Definition step (res : HttpResponse) (body : ref) (w : world) (e : event)
    : world :=
  match e with
  | SockData c isLast =>
      {| w_store :=
           match dataHandler res with
           | Some cb => cb (next_chunk (w_memory w) c) isLast (w_store w)
           | None => w_store w
           end;
         w_memory := w_memory w ++ [c];
         w_consumer := w_consumer w |}
  | SockAborted =>
      match abortHandler res with
      | Some cb => {| w_store := cb (w_store w);
                      w_memory := w_memory w;
                      w_consumer := w_consumer w |}
      | None => w
      end
  | SockReuse a c =>
      {| w_store := w_store w;
         w_memory := <[a := c]> (w_memory w);
         w_consumer := w_consumer w |}
  | Pull =>
      match w_store w !! body with
      | Some r =>
          let '(r', k') := Readable.read (w_memory w) r (w_consumer w) in
          {| w_store := <[body := r']> (w_store w);
             w_memory := w_memory w;
             w_consumer := k' |}
      | None => w
      end
  end.

Definition run (res : HttpResponse) (body : ref) (w : world)
    (evs : list event) : world :=
  foldl (step res body) w evs.

(** The consumer of the body of one request, after the given events;
    [None] when the request was adapted without a body. *)
Definition serve_body (req : uWS.HttpRequest) (h : store)
    (evs : list event) : option Readable.consumer :=
  let '(args, res, h1) := adapt req h in
  match init_body (fetch_init args) with
  | Some body =>
      Some (w_consumer (run res body
                          {| w_store := h1; w_memory := [];
                             w_consumer := Readable.idle |}
                          evs))
  | None => None
  end.

(** The bytes the socket layer delivered, in arrival order. *)
Fixpoint pushed_bytes (evs : list event) : chunk :=
  match evs with
  | [] => []
  | SockData c _ :: evs' => c ++ pushed_bytes evs'
  | _ :: evs' => pushed_bytes evs'
  end.

(** The number of chunks the socket layer delivered. *)
Fixpoint deliveries (evs : list event) : nat :=
  match evs with
  | [] => 0
  | SockData _ _ :: evs' => S (deliveries evs')
  | _ :: evs' => deliveries evs'
  end.

(** The views of the data-carrying chunks delivered, in arrival order,
    when [n] chunks had been delivered before. *)
Fixpoint pushed_views (n : nat) (evs : list event) : list Buffer :=
  match evs with
  | [] => []
  | SockData c _ :: evs' =>
      match c with
      | [] => pushed_views (S n) evs'
      | _ :: _ =>
          {| buf_address := n; buf_length := length c |}
          :: pushed_views (S n) evs'
      end
  | _ :: evs' => pushed_views n evs'
  end.

(** No last-flag chunk and no abort yet. *)
Definition still_open (e : event) : bool :=
  match e with
  | SockData _ isLast => negb isLast
  | SockAborted => false
  | SockReuse _ _ => true
  | Pull => true
  end.


(** After the end of the stream was pushed: no data-carrying chunk
    arrives before the consumer's next turn. *)
Fixpoint undisturbed (evs : list event) : bool :=
  match evs with
  | [] => true
  | Pull :: _ => true
  | SockData (_ :: _) _ :: _ => false
  | _ :: evs' => undisturbed evs'
  end.

(** The same events seen from the stream the callbacks close over. *)
Record solo := {
  so_memory : memory;
  so_stream : Readable.t;
  so_consumer : Readable.consumer
}.

Definition stream_step (s : solo) (e : event) : solo :=
  match e with
  | SockData c isLast =>
      let r := Readable.push
                 (Some (Buffer_from (next_chunk (so_memory s) c)))
                 (so_stream s) in
      {| so_memory := so_memory s ++ [c];
         so_stream := if isLast then Readable.push None r else r;
         so_consumer := so_consumer s |}
  | SockAborted =>
      {| so_memory := so_memory s;
         so_stream := Readable.push None (so_stream s);
         so_consumer := so_consumer s |}
  | SockReuse a c =>
      {| so_memory := <[a := c]> (so_memory s);
         so_stream := so_stream s;
         so_consumer := so_consumer s |}
  | Pull =>
      let '(r, k) := Readable.read (so_memory s) (so_stream s)
                       (so_consumer s) in
      {| so_memory := so_memory s; so_stream := r; so_consumer := k |}
  end.

Definition stream_run (s : solo) (evs : list event) : solo :=
  foldl stream_step s evs.

Definition fresh_solo : solo :=
  {| so_memory := []; so_stream := Readable.new;
     so_consumer := Readable.idle |}.

(** *** Invariants of the stream *)

(** Before end-of-stream: the views read plus the views buffered are
    the views pushed. *)
Definition open_inv (vs : list Buffer) (s : solo) : Prop :=
  Readable.ended (so_stream s) = false ∧
  Readable.destroyed (so_stream s) = false ∧
  Readable.errored (so_stream s) = false ∧
  Readable.finished (so_consumer s) = false ∧
  Readable.views_of (Readable.log (so_consumer s))
    ++ Readable.buffer (so_stream s) = vs ∧
  Readable.count_ends (Readable.log (so_consumer s)) = 0 ∧
  Readable.count_errors (Readable.log (so_consumer s)) = 0.

(** After end-of-stream, whatever happens next. *)
Definition sealed_inv (vs : list Buffer) (s : solo) : Prop :=
  Readable.ended (so_stream s) = true ∧
  Readable.views_of (Readable.log (so_consumer s))
    ++ Readable.buffer (so_stream s) = vs.

(** After end-of-stream, before the consumer's next turn and with no
    data-carrying chunk pushed since. *)
Definition pending_inv (vs : list Buffer) (s : solo) : Prop :=
  sealed_inv vs s ∧
  Readable.destroyed (so_stream s) = false ∧
  Readable.errored (so_stream s) = false ∧
  Readable.finished (so_consumer s) = false ∧
  Readable.count_ends (Readable.log (so_consumer s)) = 0 ∧
  Readable.count_errors (Readable.log (so_consumer s)) = 0.

(** After end-of-stream, once the consumer has taken a turn: the stream
    has destroyed itself and nothing can go wrong any more. *)
Definition settled_inv (vs : list Buffer) (s : solo) : Prop :=
  Readable.ended (so_stream s) = true ∧
  Readable.destroyed (so_stream s) = true ∧
  Readable.errored (so_stream s) = false ∧
  Readable.buffer (so_stream s) = [] ∧
  Readable.views_of (Readable.log (so_consumer s)) = vs ∧
  Readable.count_errors (Readable.log (so_consumer s)) = 0 ∧
  if Readable.finished (so_consumer s)
  then Readable.count_ends (Readable.log (so_consumer s)) = 1 ∧
       last (Readable.log (so_consumer s)) = Some Readable.ObsEnd
  else Readable.count_ends (Readable.log (so_consumer s)) = 0.

(** After a data-carrying chunk was pushed onto the ended stream, when
    the consumer had logged [lg] by then. *)
Definition failed_inv (lg : list Readable.observation) (s : solo) : Prop :=
  Readable.ended (so_stream s) = true ∧
  Readable.destroyed (so_stream s) = true ∧
  Readable.errored (so_stream s) = true ∧
  Readable.log (so_consumer s)
  = lg ++ if Readable.finished (so_consumer s)
          then [Readable.ObsError] else [].

(** Every buffered view is on a chunk that was delivered. *)
Definition bounded (s : solo) : Prop :=
  Forall (fun v => buf_address v < length (so_memory s))
         (Readable.buffer (so_stream s)).


(** Two runs on an ended stream that differ at most in the memory
    beyond the first [n] chunks. *)
Definition alike (n : nat) (s1 s2 : solo) : Prop :=
  so_stream s1 = so_stream s2 ∧
  so_consumer s1 = so_consumer s2 ∧
  Readable.ended (so_stream s1) = true ∧
  take n (so_memory s1) = take n (so_memory s2) ∧
  n ≤ length (so_memory s1) ∧
  n ≤ length (so_memory s2) ∧
  Forall (fun v => buf_address v < n) (Readable.buffer (so_stream s1)).

(** ** Effects: a state and exception monad

    [async] functions are written in it: the state carries what the
    function has done so far, a rejected promise or a thrown exception is
    [Thrown]. *)

Definition Exn := string.

Inductive result (A : Type) :=
| Returned (a : A)
| Thrown (e : Exn).
Arguments Returned {A} a.
Arguments Thrown {A} e.

Definition M (S A : Type) : Type := S -> result A * S.

Definition ret {S A} (a : A) : M S A := fun s => (Returned a, s).

Definition throw {S A} (e : Exn) : M S A := fun s => (Thrown e, s).

Definition bind {S A B} (m : M S A) (f : A -> M S B) : M S B :=
  fun s =>
    match m s with
    | (Returned a, s') => f a s'
    | (Thrown e, s') => (Thrown e, s')
    end.

Notation "x <- m ;; k" := (bind m (fun x => k))
  (at level 100, m at next level, right associativity, only parsing).
Notation "m ;; k" := (bind m (fun _ => k))
  (at level 100, right associativity, only parsing).

(** [l.forEach(f)] *)
Fixpoint for_each {S A} (f : A -> M S unit) (l : list A) : M S unit :=
  match l with
  | [] => ret tt
  | x :: l' => f x ;; for_each f l'
  end.

(** ** The response writer (app.ts, lines 81-98) *)

Inductive ResponseBody :=
| Uint8Array (bytes : chunk)
| AsyncIterable (chunks : list chunk) (failure : option Exn).

(** What [yoga.fetch] resolves to.  [headers] lists the pairs in the
    order [response.headers.forEach] visits them; an async body yields
    [chunks] and then completes, or rejects with [failure]. *)
Record Response := {
  status : N;
  statusText : string;
  headers : list (string * string);
  body : option ResponseBody
}.

(** The calls the socket-level response sink offers. *)
Inductive SinkCall :=
| WriteStatus (line : string)
| WriteHeader (key value : string)
| Write (c : chunk)
| End (body : option chunk).

(** What [yogaHandler] does, in order.  A sink call is recorded with
    the state of the exchange at the time of the call: whether the
    transport's abort had already fired. *)
Inductive TaskEvent :=
| EvFetch (args : FetchArgs)
| EvSuspend
| EvSink (aborted : bool) (call : SinkCall).

Record TaskState := {
  aborted : bool;
  suspensions : nat;
  trace : list TaskEvent
}.

Definition Task := M TaskState.

Definition start : TaskState :=
  {| aborted := false; suspensions := 0; trace := [] |}.

Definition sink_calls (t : list TaskEvent) : list SinkCall :=
  omap (fun e => match e with EvSink _ c => Some c | _ => None end) t.

(** The sink calls issued after the abort fired. *)
Definition calls_after_abort (t : list TaskEvent) : list SinkCall :=
  omap (fun e => match e with EvSink true c => Some c | _ => None end) t.

Definition is_write (c : SinkCall) : bool :=
  match c with Write _ => true | _ => false end.

Definition is_termination (c : SinkCall) : bool :=
  match c with End _ => true | _ => false end.

Definition is_preamble (c : SinkCall) : bool :=
  match c with WriteStatus _ | WriteHeader _ _ => true | _ => false end.

Definition forwards_content_length (c : SinkCall) : bool :=
  match c with
  | WriteHeader key _ => Str.eqb key "content-length"
  | _ => false
  end.

Section Handler.

(** The transport: whether its abort fires while the handler is
    suspended for the [n]-th time. *)
Variable fires : nat -> bool.

(** The query engine's entry point for one-shot exchanges. *)
Variable yoga_fetch : FetchArgs -> result Response.

(** [await]: control returns to the event loop, where the abort may
    fire. *)
Definition suspend : Task unit :=
  fun s =>
    (Returned tt,
     {| aborted := aborted s || fires (suspensions s);
        suspensions := S (suspensions s);
        trace := trace s ++ [EvSuspend] |}).

(** A call on [res]. *)
Definition sink (c : SinkCall) : Task unit :=
  fun s =>
    (Returned tt,
     {| aborted := aborted s;
        suspensions := suspensions s;
        trace := trace s ++ [EvSink (aborted s) c] |}).

(** [yoga.fetch(...)]: the call is made now, its promise settles
    later. *)
Definition call_fetch (args : FetchArgs) : Task (result Response) :=
  fun s =>
    (Returned (yoga_fetch args),
     {| aborted := aborted s;
        suspensions := suspensions s;
        trace := trace s ++ [EvFetch args] |}).

(** [await promise] *)
Definition await {A} (promise : result A) : Task A :=
  suspend ;;
  match promise with
  | Returned a => ret a
  | Thrown e => throw e
  end.

(** [for await (const chunk of body) f(chunk)] *)
Fixpoint for_await (chunks : list chunk) (failure : option Exn)
    (f : chunk -> Task unit) : Task unit :=
  match chunks with
  | [] =>
      suspend ;;
      match failure with
      | Some e => throw e
      | None => ret tt
      end
  | c :: rest => suspend ;; f c ;; for_await rest failure f
  end.

(** [`${response.status} ${response.statusText}`] *)
Definition status_line (response : Response) : string :=
  Str.of_N (status response) +:+ " " +:+ statusText response.

(** [(value, key) => { if (key === 'content-length') { return }; res.writeHeader(key, value) }] *)
Definition forward_header (kv : string * string) : Task unit :=
  let key := fst kv in
  let value := snd kv in
  if Str.eqb key "content-length" then ret tt
  else sink (WriteHeader key value).

Definition respond (response : Response) : Task unit :=
  sink (WriteStatus (status_line response)) ;;
  for_each forward_header (headers response) ;;
  match body response with
  | Some (Uint8Array bytes) => sink (End (Some bytes))
  | Some (AsyncIterable chunks failure) =>
      for_await chunks failure (fun c => sink (Write c)) ;;
      sink (End None)
  | None => sink (End None)
  end.

Definition yogaHandler (req : uWS.HttpRequest) (h : store) : Task unit :=
  let '(args, _, _) := adapt req h in
  promise <- call_fetch args ;;
  response <- await promise ;;
  respond response.

End Handler.

(** The header calls of a response: every pair but [content-length]. *)
Definition header_calls (hs : list (string * string)) : list SinkCall :=
  map (fun kv => WriteHeader (fst kv) (snd kv))
      (filter (fun kv => fst kv ≠ "content-length"%string) hs).

(** The calls that carry or end the body. *)
Definition body_calls (b : option ResponseBody) : list SinkCall :=
  match b with
  | Some (Uint8Array bytes) => [End (Some bytes)]
  | Some (AsyncIterable chunks None) => map Write chunks ++ [End None]
  | Some (AsyncIterable chunks (Some _)) => map Write chunks
  | None => [End None]
  end.

Definition respond_result (b : option ResponseBody) : result unit :=
  match b with
  | Some (AsyncIterable _ (Some e)) => Thrown e
  | _ => Returned tt
  end.

(** A task that returns [r] and issues exactly the calls [cs]: all of
    them after the abort if the abort had fired before, none of them
    after the abort if it never fires. *)
Definition emits (fires : nat -> bool) {A} (m : Task A) (r : result A)
    (cs : list SinkCall) : Prop :=
  ∀ s,
    fst (m s) = r ∧
    ∃ new,
      trace (snd (m s)) = trace s ++ new ∧
      sink_calls new = cs ∧
      (aborted s = true →
       aborted (snd (m s)) = true ∧ calls_after_abort new = cs) ∧
      ((∀ n, fires n = false) → aborted s = false →
       aborted (snd (m s)) = false ∧ calls_after_abort new = []).

Definition ok_response (hs : list (string * string))
    (b : option ResponseBody) : Response :=
  {| status := 200; statusText := "OK"; headers := hs; body := b |}.

(** The calls a response puts on a fresh exchange. *)
Definition written (fires : nat -> bool) (response : Response)
    : list SinkCall :=
  sink_calls (trace (snd (respond fires response start))).

Definition count_writes (cs : list SinkCall) : nat :=
  length (filter (fun c => is_write c = true) cs).

Definition count_terminations (cs : list SinkCall) : nat :=
  length (filter (fun c => is_termination c = true) cs).

(** ** The graphql-ws bridge (app.ts, lines 101-134) *)

Inductive OperationType := Query | Mutation | Subscription.

(** A function value: the identity of one [execute] or [subscribe]
    implementation.  Envelop may wrap the engine's functions at any
    time, which yields function values with new identities. *)
Definition fn_ref := nat.

Section Bridge.

Context {Schema Document ContextValue GraphQLError Variables Ctx
         ExecutionResult : Type}.

Record RootValue := {
  rv_execute : fn_ref;
  rv_subscribe : fn_ref
}.

Record EnvelopedExecutionArgs := {
  schema : Schema;
  operationName : option string;
  document : Document;
  variableValues : Variables;
  contextValue : ContextValue;
  rootValue : RootValue
}.

(** What [yoga.getEnveloped(ctx)] returns. *)
Record Enveloped := {
  env_schema : Schema;
  env_execute : fn_ref;
  env_subscribe : fn_ref;
  env_contextFactory : result ContextValue;
  env_parse : string -> result Document;
  env_validate : Schema -> Document -> list GraphQLError
}.

(** The engine: its enveloped functions are whatever is wired in at
    the time of the call. *)
Record Yoga := {
  getEnveloped : Ctx -> Enveloped
}.

Record SubscribePayload := {
  p_operationName : option string;
  p_query : string;
  p_variables : Variables
}.

Record SubscribeMessage := {
  msg_id : string;
  payload : SubscribePayload
}.

(** What the bridge does, in order. *)
Inductive BridgeEvent :=
| EvGetEnveloped (ctx : Ctx)
| EvParse (query : string)
| EvContextFactory
| EvValidate (s : Schema) (d : Document)
| EvExecute (f : fn_ref) (args : EnvelopedExecutionArgs)
| EvSubscribe (f : fn_ref) (args : EnvelopedExecutionArgs)
| EvSendError (id : string) (errors : list GraphQLError).

Definition Bridge := M (list BridgeEvent).

Definition emit (e : BridgeEvent) : Bridge unit :=
  fun l => (Returned tt, l ++ [e]).

(** A call whose outcome is [r]. *)
Definition call {A} (e : BridgeEvent) (r : result A) : Bridge A :=
  emit e ;;
  match r with
  | Returned a => ret a
  | Thrown x => throw x
  end.

(** Calling a function value with the operation's arguments. *)
Variable apply : fn_ref -> EnvelopedExecutionArgs -> result ExecutionResult.

(** [execute: (args) => args.rootValue.execute(args)] *)
Definition wsHandler_execute (args : EnvelopedExecutionArgs)
    : Bridge ExecutionResult :=
  let f := rv_execute (rootValue args) in
  call (EvExecute f args) (apply f args).

(** [subscribe: (args) => args.rootValue.subscribe(args)] *)
Definition wsHandler_subscribe (args : EnvelopedExecutionArgs)
    : Bridge ExecutionResult :=
  let f := rv_subscribe (rootValue args) in
  call (EvSubscribe f args) (apply f args).

(** [onSubscribe: async (ctx, msg) => ...] *)
Definition wsHandler_onSubscribe (yoga : Yoga) (ctx : Ctx)
    (msg : SubscribeMessage)
    : Bridge (list GraphQLError + EnvelopedExecutionArgs) :=
  env <- call (EvGetEnveloped ctx) (Returned (getEnveloped yoga ctx)) ;;
  doc <- call (EvParse (p_query (payload msg)))
              (env_parse env (p_query (payload msg))) ;;
  cv <- call EvContextFactory (env_contextFactory env) ;;
  let args :=
    {| schema := env_schema env;
       operationName := p_operationName (payload msg);
       document := doc;
       variableValues := p_variables (payload msg);
       contextValue := cv;
       rootValue := {| rv_execute := env_execute env;
                       rv_subscribe := env_subscribe env |} |} in
  errors <- call (EvValidate (schema args) (document args))
                 (Returned (env_validate env (schema args) (document args))) ;;
  if negb (length errors =? 0) then ret (inl errors)
  else ret (inr args).

(** The arguments [onSubscribe] builds from what it resolved. *)
Definition built_args (env : Enveloped) (msg : SubscribeMessage)
    (doc : Document) (cv : ContextValue) : EnvelopedExecutionArgs :=
  {| schema := env_schema env;
     operationName := p_operationName (payload msg);
     document := doc;
     variableValues := p_variables (payload msg);
     contextValue := cv;
     rootValue := {| rv_execute := env_execute env;
                     rv_subscribe := env_subscribe env |} |}.

(** The operation a document selects for a name (graphql's
    [getOperationAST]), if it can be identified. *)
Variable operation_type : Document -> option string -> option OperationType.

(** The error graphql-ws reports when it cannot. *)
Variable unidentified_operation : GraphQLError.

(** graphql-ws on a start-operation frame: it calls [onSubscribe]; an
    error list is sent back as the operation's error message and
    nothing is executed; otherwise the returned arguments go to the
    behaviour's [subscribe] for a subscription and to its [execute] for
    a query or mutation. *)
Definition start_operation (yoga : Yoga) (ctx : Ctx)
    (msg : SubscribeMessage) : Bridge unit :=
  r <- wsHandler_onSubscribe yoga ctx msg ;;
  match r with
  | inl errors => emit (EvSendError (msg_id msg) errors)
  | inr args =>
      match operation_type (document args) (operationName args) with
      | None => emit (EvSendError (msg_id msg) [unidentified_operation])
      | Some Subscription => wsHandler_subscribe args ;; ret tt
      | Some _ => wsHandler_execute args ;; ret tt
      end
  end.

(** One connection: the frames in arrival order, each with the engine
    as it is wired when the frame arrives.  An exception thrown while a
    frame is handled closes the socket, so the frames after it are not
    handled.  The result lists the outcome of every frame handled. *)
Fixpoint serve (ctx : Ctx) (frames : list (Yoga * SubscribeMessage))
    (l : list BridgeEvent) : list (result unit) * list BridgeEvent :=
  match frames with
  | [] => ([], l)
  | f :: rest =>
      match start_operation (fst f) ctx (snd f) l with
      | (Returned u, l') =>
          let '(rs, l'') := serve ctx rest l' in (Returned u :: rs, l'')
      | (Thrown e, l') => ([Thrown e], l')
      end
  end.

(** The implementations invoked, in order: [true] marks [subscribe]. *)
Definition invocations (l : list BridgeEvent)
    : list (bool * fn_ref * EnvelopedExecutionArgs) :=
  omap (fun e => match e with
                 | EvExecute f a => Some (false, f, a)
                 | EvSubscribe f a => Some (true, f, a)
                 | _ => None
                 end) l.

(** What the specification requires one frame to invoke: the
    implementation that [getEnveloped] returns from the engine as wired
    for this frame, on the arguments built from what was resolved for
    this frame; nothing when the query does not parse, the context
    factory fails, validation reports errors or the operation cannot be
    identified. *)
Definition expected_invocation (yoga : Yoga) (ctx : Ctx)
    (msg : SubscribeMessage)
    : list (bool * fn_ref * EnvelopedExecutionArgs) :=
  let env := getEnveloped yoga ctx in
  match env_parse env (p_query (payload msg)) with
  | Returned doc =>
      match env_contextFactory env with
      | Returned cv =>
          match env_validate env (env_schema env) doc with
          | [] =>
              match operation_type doc (p_operationName (payload msg)) with
              | None => []
              | Some Subscription =>
                  [(true, env_subscribe env, built_args env msg doc cv)]
              | Some _ =>
                  [(false, env_execute env, built_args env msg doc cv)]
              end
          | _ :: _ => []
          end
      | Thrown _ => []
      end
  | Thrown _ => []
  end.

(** The engine with another [execute] wired in. *)
Definition swap_execute (f : fn_ref) (yoga : Yoga) : Yoga :=
  {| getEnveloped := fun ctx =>
       let env := getEnveloped yoga ctx in
       {| env_schema := env_schema env;
          env_execute := f;
          env_subscribe := env_subscribe env;
          env_contextFactory := env_contextFactory env;
          env_parse := env_parse env;
          env_validate := env_validate env |} |}.

End Bridge.

(** ** Further notions used to state properties of the handlers *)

(** A task that returns [a] without suspending: its calls [cs] are all
    issued in the abort state the task started in. *)
Definition issues_at_once {A} (m : Task A) (a : A) (cs : list SinkCall)
    : Prop :=
  ∀ s,
    m s = (Returned a,
           {| aborted := aborted s;
              suspensions := suspensions s;
              trace := trace s ++ map (EvSink (aborted s)) cs |}).

(** The course of a task with the abort state left out: it waits at a
    suspension or makes a call on the sink. *)
Inductive course_step :=
| Waits
| Calls (c : SinkCall).

Definition course (t : list TaskEvent) : list course_step :=
  omap (fun e => match e with
                 | EvFetch _ => None
                 | EvSuspend => Some Waits
                 | EvSink _ c => Some (Calls c)
                 end) t.

(** Reading a status line back: the text before the first space is the
    status in decimal, the rest is the status text. *)
Fixpoint split_at_space (s : string) : string * string :=
  match s with
  | EmptyString => (EmptyString, EmptyString)
  | String c s' =>
      if Ascii.eqb c " " then (EmptyString, s')
      else let '(a, b) := split_at_space s' in (String c a, b)
  end.

Definition read_status_line (line : string) : option (N * string) :=
  let '(code, text) := split_at_space line in
  match NilEmpty.uint_of_string code with
  | Some d => Some (N.of_uint d, text)
  | None => None
  end.

(** *** Several requests on one server

    Every call of [yogaHandler] has its own [body] variable; the streams
    of all pending requests live in the one store.  The chunks delivered
    for a request are numbered per request. *)

(** One pending request: the callbacks it left on its response, its
    [body] variable, the memory behind the chunks delivered for it and
    the consumer of its body. *)
Record exchange := {
  x_res : HttpResponse;
  x_body : option ref;
  x_memory : memory;
  x_consumer : Readable.consumer
}.

(** The synchronous prefix of [yogaHandler] for a new request. *)
Definition open_exchange (req : uWS.HttpRequest) (h : store)
    : exchange * store :=
  let '(args, res, h1) := adapt req h in
  ({| x_res := res;
      x_body := init_body (fetch_init args);
      x_memory := [];
      x_consumer := Readable.idle |}, h1).

(** An event for one pending request: a socket event goes to the
    callbacks registered on its response, a turn of the consumer reads
    its body, if it has one. *)
Definition exchange_step (x : exchange) (h : store) (e : event)
    : store * exchange :=
  match x_body x with
  | Some body =>
      let w := step (x_res x) body
                 {| w_store := h; w_memory := x_memory x;
                    w_consumer := x_consumer x |} e in
      (w_store w,
       {| x_res := x_res x; x_body := x_body x;
          x_memory := w_memory w;
          x_consumer := w_consumer w |})
  | None =>
      match e with
      | SockData c isLast =>
          (match dataHandler (x_res x) with
           | Some cb => cb (next_chunk (x_memory x) c) isLast h
           | None => h
           end,
           {| x_res := x_res x; x_body := x_body x;
              x_memory := x_memory x ++ [c];
              x_consumer := x_consumer x |})
      | SockAborted =>
          (match abortHandler (x_res x) with
           | Some cb => cb h
           | None => h
           end, x)
      | SockReuse a c =>
          (h, {| x_res := x_res x; x_body := x_body x;
                 x_memory := <[a := c]> (x_memory x);
                 x_consumer := x_consumer x |})
      | Pull => (h, x)
      end
  end.

(** What the consumer of a pending request has seen; [None] when the
    request has no body. *)
Definition observed (x : exchange) : option Readable.consumer :=
  match x_body x with
  | Some _ => Some (x_consumer x)
  | None => None
  end.

Inductive server_event :=
| Arrive (req : uWS.HttpRequest)
| Deliver (i : nat) (e : event).

Record server := {
  s_store : store;
  s_exchanges : list exchange
}.

Definition idle_server : server := {| s_store := []; s_exchanges := [] |}.

(** Requests are numbered in arrival order; an event for a request that
    has not arrived is dropped. *)
Definition server_step (s : server) (ev : server_event) : server :=
  match ev with
  | Arrive req =>
      let '(x, h) := open_exchange req (s_store s) in
      {| s_store := h; s_exchanges := s_exchanges s ++ [x] |}
  | Deliver i e =>
      match s_exchanges s !! i with
      | Some x =>
          let '(h, x') := exchange_step x (s_store s) e in
          {| s_store := h; s_exchanges := <[i := x']> (s_exchanges s) |}
      | None => s
      end
  end.

Definition server_run (s : server) (sched : list server_event) : server :=
  foldl server_step s sched.

(** The requests of a schedule, in arrival order. *)
Fixpoint arrivals (sched : list server_event) : list uWS.HttpRequest :=
  match sched with
  | [] => []
  | Arrive req :: rest => req :: arrivals rest
  | Deliver _ _ :: rest => arrivals rest
  end.

(** The events of a schedule that reach request [i], when [n] requests
    had arrived before the schedule starts. *)
Fixpoint delivered_to (n i : nat) (sched : list server_event)
    : list event :=
  match sched with
  | [] => []
  | Arrive _ :: rest => delivered_to (S n) i rest
  | Deliver j e :: rest =>
      if bool_decide (j = i ∧ i < n) then e :: delivered_to n i rest
      else delivered_to n i rest
  end.

(** The callbacks a request with the given [body] variable registers. *)
Definition handlers_of (body : option ref) : HttpResponse :=
  match body with
  | Some b => {| dataHandler := Some (onData_callback b);
                 abortHandler := Some (onAborted_callback b) |}
  | None => {| dataHandler := None; abortHandler := None |}
  end.

(** Pending requests hold their own callbacks and a stream that is
    theirs alone. *)
Definition server_inv (s : server) : Prop :=
  (∀ i x, s_exchanges s !! i = Some x →
          x_res x = handlers_of (x_body x) ∧
          ∀ b, x_body x = Some b → b < length (s_store s)) ∧
  (∀ i j xi xj b,
     s_exchanges s !! i = Some xi → s_exchanges s !! j = Some xj →
     x_body xi = Some b → x_body xj = Some b → i = j).

(** Request [i] is pending with the given memory, stream and consumer,
    or without a body. *)
Definition holds (s : server) (i : nat) (o : option solo) : Prop :=
  ∃ x, s_exchanges s !! i = Some x ∧
       match o with
       | Some so => ∃ b, x_body x = Some b ∧
                         s_store s !! b = Some (so_stream so) ∧
                         x_memory x = so_memory so ∧
                         x_consumer x = so_consumer so
       | None => x_body x = None
       end.

(** ** Sample inputs *)

Definition post_request : uWS.HttpRequest :=
  {| uWS.wire_method := "POST";
     uWS.wire_url := "/graphql";
     uWS.wire_headers := [("Content-Type", "application/json");
                          ("X-Trace", "a"); ("x-trace", "b")]%string |}.

Definition get_request : uWS.HttpRequest :=
  {| uWS.wire_method := "GET";
     uWS.wire_url := "/graphql";
     uWS.wire_headers := [("Accept", "text/html")]%string |}.

(** An engine over strings: a query is its own document, [{] does not
    parse, and a document that selects [invalidField] fails validation
    with two errors. *)
Definition sample_env (exec : fn_ref)
    : @Enveloped unit string unit string :=
  {| env_schema := tt;
     env_execute := exec;
     env_subscribe := 7;
     env_contextFactory := Returned tt;
     env_parse := fun q =>
       if String.eqb q "{" then Thrown "Syntax Error: Expected Name"
       else Returned q;
     env_validate := fun _ d =>
       if String.eqb d "{ invalidField }"
       then ["Cannot query field invalidField on type Query";
             "Unknown type"]%string
       else [] |}.

Definition sample_yoga (exec : fn_ref)
    : @Yoga unit string unit string unit :=
  {| getEnveloped := fun _ => sample_env exec |}.

Definition sample_message (id query : string) : @SubscribeMessage unit :=
  {| msg_id := id;
     payload := {| p_operationName := None;
                   p_query := query;
                   p_variables := tt |} |}.

(** Calling a function value: every function answers with the document. *)
Definition sample_apply (f : fn_ref)
    (args : @EnvelopedExecutionArgs unit string unit unit)
    : result string :=
  Returned (document args).

Definition sample_operation_type (d : string) (name : option string)
    : option OperationType :=
  if String.prefix "subscription" d then Some Subscription
  else if String.prefix "mutation" d then Some Mutation
  else if String.prefix "{" d then Some Query
  else None.

(** * Properties *)

(** ** Strings and header copying *)

Lemma lower_ascii_idem (c : ascii) :
  Str.lower_ascii (Str.lower_ascii c) = Str.lower_ascii c.
Proof. destruct c as [[] [] [] [] [] [] [] []]; reflexivity. Qed.

Lemma lower_idem (s : string) : Str.lower (Str.lower s) = Str.lower s.
Proof.
  induction s as [|c s IH]; simpl; [done|].
  by rewrite lower_ascii_idem, IH.
Qed.

Lemma eqb_true (a b : string) : Str.eqb a b = true ↔ a = b.
Proof. unfold Str.eqb. apply bool_decide_eq_true. Qed.

Lemma eqb_false (a b : string) : Str.eqb a b = false ↔ a ≠ b.
Proof. unfold Str.eqb. apply bool_decide_eq_false. Qed.

Lemma carries_body_spec (m : string) :
  carries_body m = negb (bool_decide (m = "get"%string ∨ m = "head"%string)).
Proof.
  unfold carries_body, Str.eqb.
  destruct (decide (m = "get"%string)) as [->|Hg]; [done|].
  destruct (decide (m = "head"%string)) as [->|Hh]; [done|].
  rewrite (bool_decide_eq_false_2 _ Hg), (bool_decide_eq_false_2 _ Hh).
  rewrite bool_decide_eq_false_2; [done|]. by intros [?|?].
Qed.

(** Copying pairs into an object one assignment at a time: an own
    property reads back the value written last for its name, or what was
    there before; nothing is ever stored under [__proto__]. *)
Lemma assign_all_lookup (kvs : list (string * string))
    (m : gmap string string) (k : string) :
  foldl (fun acc kv => set_property (fst kv) (snd kv) acc) m kvs !! k
  = if Str.eqb k "__proto__" then m !! k
    else match last_written k kvs with
         | Some v => Some v
         | None => m !! k
         end.
Proof.
  revert m. induction kvs as [|[k' v] kvs IH]; intros m; simpl.
  { by destruct (Str.eqb k "__proto__"). }
  rewrite IH. unfold set_property.
  destruct (Str.eqb k "__proto__") eqn:Hp.
  - apply eqb_true in Hp as ->.
    destruct (Str.eqb k' "__proto__") eqn:Hk'; [done|].
    apply eqb_false in Hk'. by rewrite lookup_insert_ne.
  - apply eqb_false in Hp.
    destruct (last_written k kvs) as [v'|]; [done|].
    destruct (Str.eqb k' k) eqn:Hk.
    + apply eqb_true in Hk as ->.
      rewrite (proj2 (eqb_false _ _) Hp). by rewrite lookup_insert_eq.
    + apply eqb_false in Hk.
      destruct (Str.eqb k' "__proto__"); [done|].
      by rewrite lookup_insert_ne.
Qed.

Lemma copy_headers_lookup (req : uWS.HttpRequest) (k : string) :
  copy_headers req !! k
  = if Str.eqb k "__proto__" then None
    else last_written k (uWS.entries req).
Proof.
  unfold copy_headers, uWS.forEach. rewrite assign_all_lookup.
  destruct (Str.eqb k "__proto__"); [done|].
  by destruct (last_written k (uWS.entries req)).
Qed.

Lemma last_written_key (k v : string) (kvs : list (string * string)) :
  last_written k kvs = Some v → k ∈ map fst kvs.
Proof.
  induction kvs as [|[k' v'] kvs IH]; simpl; [done|].
  destruct (last_written k kvs) as [w|].
  - intros Hw. apply list_elem_of_further. by apply IH.
  - unfold Str.eqb. case_bool_decide; [|done]. intros _. subst.
    apply list_elem_of_here.
Qed.

Lemma entries_lower (req : uWS.HttpRequest) (k : string) :
  k ∈ map fst (uWS.entries req) → Str.is_lower k.
Proof.
  unfold uWS.entries. rewrite map_map. simpl.
  intros Hin. apply list_elem_of_In, in_map_iff in Hin as ([k' v] & <- & _).
  apply lower_idem.
Qed.

(** ** The body of the request as the events arrive *)

Lemma push_at_lookup (body : ref) (c : option Buffer) (h : store)
    (r : Readable.t) :
  h !! body = Some r →
  push_at body c h = <[body := Readable.push c r]> h.
Proof. intros Hr. unfold push_at. by rewrite Hr. Qed.

Lemma insert_lookup_same (h : store) (body : ref) (r r' : Readable.t) :
  h !! body = Some r → <[body := r']> h !! body = Some r'.
Proof.
  intros Hr. apply list_lookup_insert_eq. by eapply lookup_lt_Some.
Qed.

(** The callbacks of a body-carrying request act on the one stream
    they close over: the store run and the stream run agree. *)
Lemma run_stream_run (body : ref) (evs : list event) :
  ∀ (h : store) (mem : memory) (r : Readable.t) (k : Readable.consumer),
    h !! body = Some r →
    run {| dataHandler := Some (onData_callback body);
           abortHandler := Some (onAborted_callback body) |}
        body {| w_store := h; w_memory := mem; w_consumer := k |} evs
    = let s := stream_run {| so_memory := mem; so_stream := r;
                             so_consumer := k |} evs in
      {| w_store := <[body := so_stream s]> h;
         w_memory := so_memory s;
         w_consumer := so_consumer s |}.
Proof.
  unfold run, stream_run.
  induction evs as [|e evs IH]; intros h mem r k Hr; cbn [foldl].
  - cbn. by rewrite list_insert_id.
  - destruct e as [c isLast| |a c|];
      cbn [step stream_step dataHandler abortHandler
           w_store w_memory w_consumer so_memory so_stream so_consumer].
    + unfold onData_callback.
      rewrite (push_at_lookup _ _ _ _ Hr).
      pose proof (insert_lookup_same h body r
                    (Readable.push (Some (Buffer_from (next_chunk mem c))) r)
                    Hr) as Hr'.
      destruct isLast.
      * rewrite (push_at_lookup _ _ _ _ Hr'), list_insert_insert_eq.
        erewrite IH by (by eapply insert_lookup_same).
        cbn zeta. by rewrite list_insert_insert_eq.
      * erewrite IH by done. cbn zeta. by rewrite list_insert_insert_eq.
    + unfold onAborted_callback. rewrite (push_at_lookup _ _ _ _ Hr).
      erewrite IH by (by eapply insert_lookup_same).
      cbn zeta. by rewrite list_insert_insert_eq.
    + by erewrite IH by done.
    + rewrite Hr. destruct (Readable.read mem r k) as [r' k'] eqn:Hread.
      erewrite IH by (by eapply insert_lookup_same).
      cbn zeta. by rewrite list_insert_insert_eq.
Qed.


Lemma views_of_app (l l' : list Readable.observation) :
  Readable.views_of (l ++ l') = Readable.views_of l ++ Readable.views_of l'.
Proof.
  induction l as [|[vs b| |] l IH]; simpl; [done| |done|done].
  by rewrite IH, (assoc_L (++)).
Qed.

Lemma count_ends_app (l l' : list Readable.observation) :
  Readable.count_ends (l ++ l')
  = Readable.count_ends l + Readable.count_ends l'.
Proof. unfold Readable.count_ends. by rewrite filter_app, length_app. Qed.

Lemma count_errors_app (l l' : list Readable.observation) :
  Readable.count_errors (l ++ l')
  = Readable.count_errors l + Readable.count_errors l'.
Proof. unfold Readable.count_errors. by rewrite filter_app, length_app. Qed.

Lemma pushed_bytes_app (evs evs' : list event) :
  pushed_bytes (evs ++ evs') = pushed_bytes evs ++ pushed_bytes evs'.
Proof.
  induction evs as [|[c l| |a c|] evs IH]; simpl; [done| |done|done|done].
  by rewrite IH, (assoc_L (++)).
Qed.

Lemma pushed_views_app (evs evs' : list event) :
  ∀ n, pushed_views n (evs ++ evs')
       = pushed_views n evs ++ pushed_views (n + deliveries evs) evs'.
Proof.
  induction evs as [|[c l| |a c|] evs IH]; intros n; simpl.
  - by rewrite Nat.add_0_r.
  - rewrite IH. replace (S n + deliveries evs) with (n + S (deliveries evs))
      by lia. by destruct c.
  - apply IH.
  - apply IH.
  - apply IH.
Qed.

Lemma stream_run_app (s : solo) (evs evs' : list event) :
  stream_run s (evs ++ evs') = stream_run (stream_run s evs) evs'.
Proof. apply foldl_app. Qed.

Lemma stream_step_memory (s : solo) (e : event) :
  length (so_memory (stream_step s e))
  = length (so_memory s) + deliveries [e].
Proof.
  destruct s as [mem r k], e as [c isLast| |a c|]; simpl.
  - rewrite length_app. simpl. lia.
  - lia.
  - rewrite length_insert. lia.
  - destruct (Readable.read mem r k). simpl. lia.
Qed.

Lemma stream_run_memory (evs : list event) :
  ∀ s, length (so_memory (stream_run s evs))
       = length (so_memory s) + deliveries evs.
Proof.
  induction evs as [|e evs IH]; intros s; simpl; [lia|].
  change (foldl stream_step (stream_step s e) evs)
    with (stream_run (stream_step s e) evs).
  rewrite IH, stream_step_memory. destruct e; simpl; lia.
Qed.

(** *** While the stream is open *)

Lemma open_step (vs : list Buffer) (s : solo) (e : event) :
  open_inv vs s → still_open e = true →
  open_inv (vs ++ pushed_views (length (so_memory s)) [e])
           (stream_step s e).
Proof.
  unfold open_inv. intros Hinv He.
  destruct s as [mem [buf e1 d1 x1] [lg fin]].
  simpl in Hinv. destruct Hinv as (-> & -> & -> & -> & <- & Hc & Hx).
  destruct e as [c isLast| |a c|]; [| done | |].
  - destruct isLast; [done|].
    destruct c as [|b c]; simpl.
    + by rewrite (right_id_L [] (++)).
    + by rewrite (assoc_L (++)).
  - simpl. by rewrite (right_id_L [] (++)).
  - simpl. rewrite (right_id_L [] (++)). unfold Readable.read. simpl.
    destruct buf as [|b buf]; simpl.
    + by rewrite (right_id_L [] (++)).
    + rewrite views_of_app, count_ends_app, count_errors_app. simpl.
      rewrite !(right_id_L [] (++)), Hc, Hx. done.
Qed.

Lemma open_run (evs : list event) :
  ∀ (vs : list Buffer) (s : solo),
    open_inv vs s → forallb still_open evs = true →
    open_inv (vs ++ pushed_views (length (so_memory s)) evs)
             (stream_run s evs).
Proof.
  induction evs as [|e evs IH]; intros vs s Hinv Hopen.
  - simpl. by rewrite (right_id_L [] (++)).
  - simpl in Hopen. apply andb_prop in Hopen as [He Hevs].
    change (e :: evs) with ([e] ++ evs).
    rewrite pushed_views_app, (assoc_L (++)), stream_run_app.
    change (stream_run s [e]) with (stream_step s e).
    rewrite <- (stream_step_memory s e).
    apply IH; [|done]. by apply open_step.
Qed.

Lemma open_fresh : open_inv [] fresh_solo.
Proof. by repeat split. Qed.

(** The stream of a request after the events before end-of-stream. *)
Lemma open_from_fresh (pre : list event) :
  forallb still_open pre = true →
  open_inv (pushed_views 0 pre) (stream_run fresh_solo pre).
Proof. intros Hopen. apply (open_run pre [] fresh_solo open_fresh Hopen). Qed.

(** The last-flag chunk seals the stream after its bytes. *)
Lemma open_last (vs : list Buffer) (c : chunk) (s : solo) :
  open_inv vs s →
  pending_inv (vs ++ pushed_views (length (so_memory s)) [SockData c true])
              (stream_step s (SockData c true)) ∧
  Readable.log (so_consumer (stream_step s (SockData c true)))
  = Readable.log (so_consumer s).
Proof.
  unfold open_inv, pending_inv, sealed_inv.
  destruct s as [mem [buf e1 d1 x1] [lg fin]]. simpl.
  intros (-> & -> & -> & -> & <- & Hc & Hx).
  destruct c as [|b c]; simpl.
  - by rewrite !(right_id_L [] (++)).
  - by rewrite (assoc_L (++)).
Qed.

(** The abort seals the stream where it stands. *)
Lemma open_abort (vs : list Buffer) (s : solo) :
  open_inv vs s →
  pending_inv vs (stream_step s SockAborted) ∧
  Readable.log (so_consumer (stream_step s SockAborted))
  = Readable.log (so_consumer s).
Proof.
  unfold open_inv, pending_inv, sealed_inv.
  destruct s as [mem [buf e1 d1 x1] [lg fin]]. simpl.
  by intros (-> & -> & -> & -> & <- & Hc & Hx).
Qed.

(** *** After end-of-stream *)

Lemma sealed_step (vs : list Buffer) (s : solo) (e : event) :
  sealed_inv vs s → sealed_inv vs (stream_step s e).
Proof.
  unfold sealed_inv. destruct s as [mem [buf e1 d1 x1] [lg fin]]. simpl.
  intros [-> <-]. destruct e as [c isLast| |a c|]; simpl.
  - destruct c as [|b c], isLast, d1; simpl; done.
  - done.
  - done.
  - unfold Readable.read. simpl.
    destruct fin; [done|]. destruct x1; simpl.
    { rewrite views_of_app. simpl. by rewrite (right_id_L [] (++)). }
    destruct buf as [|b buf]; simpl.
    + rewrite views_of_app. simpl. by rewrite (right_id_L [] (++)).
    + rewrite views_of_app. simpl. by rewrite !(right_id_L [] (++)).
Qed.

Lemma sealed_run (evs : list event) :
  ∀ (vs : list Buffer) (s : solo),
    sealed_inv vs s → sealed_inv vs (stream_run s evs).
Proof.
  induction evs as [|e evs IH]; intros vs s Hinv; [done|].
  simpl. apply IH. by apply sealed_step.
Qed.

(** Before the consumer's next turn, an event that is not a
    data-carrying chunk leaves the sealed stream as it is. *)
Lemma pending_step (vs : list Buffer) (s : solo) (e : event) :
  pending_inv vs s → undisturbed [e; Pull] = true → e ≠ Pull →
  pending_inv vs (stream_step s e) ∧
  Readable.log (so_consumer (stream_step s e))
  = Readable.log (so_consumer s).
Proof.
  unfold pending_inv, sealed_inv.
  destruct s as [mem [buf e1 d1 x1] [lg fin]]. simpl.
  intros ((-> & <-) & -> & -> & -> & Hc & Hx) Hq Hne.
  destruct e as [c isLast| |a c|]; simpl; [| done | done | done].
  destruct c as [|b c]; [|done]. by destruct isLast.
Qed.

(** The consumer's turn on a sealed stream: it is handed what is
    buffered, or the end, and the stream has destroyed itself. *)
Lemma pending_pull (vs : list Buffer) (s : solo) :
  pending_inv vs s → settled_inv vs (stream_step s Pull).
Proof.
  unfold pending_inv, sealed_inv, settled_inv.
  destruct s as [mem [buf e1 d1 x1] [lg fin]]. simpl.
  intros ((-> & <-) & -> & -> & -> & Hc & Hx).
  unfold Readable.read. simpl. destruct buf as [|b buf]; simpl.
  - rewrite views_of_app, count_ends_app, count_errors_app, Hc, Hx,
      last_snoc. simpl. by rewrite !(right_id_L [] (++)).
  - rewrite views_of_app, count_ends_app, count_errors_app, Hc, Hx.
    simpl. by rewrite !(right_id_L [] (++)).
Qed.

(** A data-carrying chunk before the consumer's turn makes the sealed
    stream fail. *)
Lemma pending_data (vs : list Buffer) (s : solo) (b : Byte.byte)
    (c : chunk) (isLast : bool) :
  pending_inv vs s →
  failed_inv (Readable.log (so_consumer s))
             (stream_step s (SockData (b :: c) isLast)).
Proof.
  unfold pending_inv, sealed_inv, failed_inv.
  destruct s as [mem [buf e1 d1 x1] [lg fin]]. simpl.
  intros ((-> & <-) & -> & -> & -> & Hc & Hx).
  destruct isLast; simpl; by rewrite (right_id_L [] (++)).
Qed.

Lemma settled_step (vs : list Buffer) (s : solo) (e : event) :
  settled_inv vs s → settled_inv vs (stream_step s e).
Proof.
  unfold settled_inv.
  destruct s as [mem [buf e1 d1 x1] [lg fin]]. simpl.
  intros (-> & -> & -> & -> & <- & Hx & Hfin).
  destruct e as [c isLast| |a c|]; simpl.
  - destruct c as [|b c], isLast; simpl; done.
  - done.
  - done.
  - unfold Readable.read. simpl. destruct fin; simpl; [done|].
    rewrite views_of_app, count_ends_app, count_errors_app, Hfin, Hx,
      last_snoc. simpl. by rewrite !(right_id_L [] (++)).
Qed.

Lemma settled_run (evs : list event) :
  ∀ (vs : list Buffer) (s : solo),
    settled_inv vs s → settled_inv vs (stream_run s evs).
Proof.
  induction evs as [|e evs IH]; intros vs s Hinv; [done|].
  simpl. apply IH. by apply settled_step.
Qed.

Lemma settled_pull (vs : list Buffer) (s : solo) :
  settled_inv vs s →
  Readable.finished (so_consumer (stream_step s Pull)) = true.
Proof.
  unfold settled_inv.
  destruct s as [mem [buf e1 d1 x1] [lg fin]]. simpl.
  intros (-> & -> & -> & -> & <- & Hx & Hfin).
  unfold Readable.read. simpl. by destruct fin.
Qed.

(** What a settled stream has shown once its consumer is done. *)
Lemma settled_finished (vs : list Buffer) (s : solo) :
  settled_inv vs s → Readable.finished (so_consumer s) = true →
  Readable.views_of (Readable.log (so_consumer s)) = vs ∧
  Readable.count_ends (Readable.log (so_consumer s)) = 1 ∧
  Readable.count_errors (Readable.log (so_consumer s)) = 0 ∧
  last (Readable.log (so_consumer s)) = Some Readable.ObsEnd.
Proof.
  intros (_ & _ & _ & _ & Hv & Hx & Hfin) Hf. rewrite Hf in Hfin.
  by destruct Hfin.
Qed.

Lemma failed_step (lg : list Readable.observation) (s : solo) (e : event) :
  failed_inv lg s → failed_inv lg (stream_step s e).
Proof.
  unfold failed_inv.
  destruct s as [mem [buf e1 d1 x1] [lg' fin]]. simpl.
  intros (-> & -> & -> & ->).
  destruct e as [c isLast| |a c|]; simpl.
  - destruct c as [|b c], isLast; simpl; done.
  - done.
  - done.
  - unfold Readable.read. simpl. destruct fin; simpl; [done|].
    by rewrite (right_id_L [] (++)).
Qed.

Lemma failed_run (evs : list event) :
  ∀ (lg : list Readable.observation) (s : solo),
    failed_inv lg s → failed_inv lg (stream_run s evs).
Proof.
  induction evs as [|e evs IH]; intros lg s Hinv; [done|].
  simpl. apply IH. by apply failed_step.
Qed.

Lemma failed_pull (lg : list Readable.observation) (s : solo) :
  failed_inv lg s →
  Readable.finished (so_consumer (stream_step s Pull)) = true.
Proof.
  unfold failed_inv.
  destruct s as [mem [buf e1 d1 x1] [lg' fin]]. simpl.
  intros (-> & -> & -> & ->).
  unfold Readable.read. simpl. by destruct fin.
Qed.

(** How a sealed stream ends for its consumer: cleanly, unless a
    data-carrying chunk came in before the consumer's next turn. *)
Lemma seal_outcome (post : list event) :
  ∀ (vs : list Buffer) (s : solo),
    pending_inv vs s →
    let k := so_consumer (stream_run s (post ++ [Pull; Pull])) in
    Readable.finished k = true ∧
    if undisturbed post
    then Readable.views_of (Readable.log k) = vs ∧
         Readable.count_ends (Readable.log k) = 1 ∧
         Readable.count_errors (Readable.log k) = 0 ∧
         last (Readable.log k) = Some Readable.ObsEnd
    else Readable.log k
         = Readable.log (so_consumer s) ++ [Readable.ObsError].
Proof.
  assert (∀ vs s evs, settled_inv vs s →
            let k := so_consumer (stream_run s (evs ++ [Pull])) in
            Readable.finished k = true ∧
            Readable.views_of (Readable.log k) = vs ∧
            Readable.count_ends (Readable.log k) = 1 ∧
            Readable.count_errors (Readable.log k) = 0 ∧
            last (Readable.log k) = Some Readable.ObsEnd) as Hsettled.
  { intros vs s evs Hs k. unfold k. rewrite stream_run_app.
    apply settled_run with (evs := evs) in Hs.
    pose proof (settled_pull _ _ Hs) as Hf.
    apply settled_step with (e := Pull) in Hs.
    split; [done|]. by apply settled_finished. }
  induction post as [|e post IH]; intros vs s Hp.
  - apply pending_pull in Hp. apply (Hsettled vs _ [] Hp).
  - assert (e = Pull ∨ e ≠ Pull) as [->|Hne]
      by (destruct e; (by left) || (by right)).
    { apply pending_pull in Hp.
      replace ((Pull :: post) ++ [Pull; Pull])
        with ([Pull] ++ (post ++ [Pull]) ++ [Pull])
        by (by rewrite <- (assoc_L (++))).
      rewrite stream_run_app. apply (Hsettled vs _ _ Hp). }
    destruct (undisturbed [e; Pull]) eqn:Hq.
    + destruct (pending_step vs s e Hp Hq Hne) as [Hp' Hlog].
      specialize (IH vs _ Hp').
      replace (undisturbed (e :: post)) with (undisturbed post).
      2:{ destruct e as [[|b c] isLast| |a c|]; done. }
      rewrite Hlog in IH. exact IH.
    + destruct e as [[|b c] isLast| |a c|]; try done.
      apply pending_data with (b := b) (c := c) (isLast := isLast) in Hp.
      replace ((SockData (b :: c) isLast :: post) ++ [Pull; Pull])
        with ([SockData (b :: c) isLast] ++ (post ++ [Pull]) ++ [Pull])
        by (by rewrite <- (assoc_L (++))).
      set (mid := post ++ [Pull]). rewrite !stream_run_app.
      change (stream_run s [SockData (b :: c) isLast])
        with (stream_step s (SockData (b :: c) isLast)).
      apply failed_run with (evs := mid) in Hp.
      pose proof (failed_pull _ _ Hp) as Hf.
      apply failed_step with (e := Pull) in Hp.
      cbn zeta. change (stream_run ?s [Pull]) with (stream_step s Pull).
      split; [done|].
      destruct Hp as (_ & _ & _ & Hlog).
      rewrite Hlog. by rewrite Hf.
Qed.

(** The consumer of a body-carrying request reads the stream the
    callbacks feed. *)
Lemma serve_body_stream (req : uWS.HttpRequest) (h : store)
    (evs : list event) :
  carries_body (uWS.getMethod req) = true →
  serve_body req h evs
  = Some (so_consumer (stream_run fresh_solo evs)).
Proof.
  intros Hc. unfold serve_body, adapt. rewrite Hc.
  cbn [init_body fetch_init].
  rewrite (run_stream_run _ _ _ [] Readable.new); [done|].
  by apply list_lookup_middle.
Qed.

(** C3: a request whose verb is GET or HEAD is adapted without a body
    stream: the [body] field of the request init is absent, nothing is
    allocated and no callback is registered.  A request with any other
    verb gets a fresh, still empty stream in its [body] field, fed by the
    [onData] and [onAborted] callbacks registered for it. *)
Theorem bodyless_verbs_get_no_stream (req : uWS.HttpRequest) (h : store) :
  let args := fst (fst (adapt req h)) in
  let res := snd (fst (adapt req h)) in
  let h' := snd (adapt req h) in
  if bool_decide (uWS.getMethod req = "get"%string
                  ∨ uWS.getMethod req = "head"%string)
  then init_body (fetch_init args) = None ∧ h' = h ∧
       dataHandler res = None ∧ abortHandler res = None
  else init_body (fetch_init args) = Some (length h) ∧
       h' = h ++ [Readable.new] ∧
       h' !! length h = Some Readable.new ∧
       dataHandler res = Some (onData_callback (length h)) ∧
       abortHandler res = Some (onAborted_callback (length h)).
Proof.
  unfold adapt. rewrite carries_body_spec.
  destruct (bool_decide _); simpl; [done|].
  repeat split. apply list_lookup_middle. done.
Qed.

Example verbs_lower_cased :
  uWS.getMethod get_request = "get"%string ∧
  init_body (fetch_init (fst (fst (adapt get_request [])))) = None ∧
  init_body (fetch_init (fst (fst (adapt post_request [])))) = Some 0.
Proof. repeat split. Qed.

(** C6 does not hold of the code: what [onData] pushes is
    [Buffer.from(chunk)], a view on the memory of the transport's
    [ArrayBuffer], not a copy of its bytes.  Here the chunk [ab] is pushed,
    the transport then reuses that memory, which now holds [Xb], and the
    last-flag chunk [c] follows; the consumer, reading afterwards, is
    handed the two views in arrival order and the end of the stream once,
    but the bytes it reads are [Xbc], not the bytes [abc] that were
    pushed. *)
Theorem chunk_read_after_memory_reuse :
  let evs := [SockData ["a"; "b"]%byte false;
              SockReuse 0 ["X"; "b"]%byte;
              SockData ["c"]%byte true; Pull; Pull] in
  pushed_bytes evs = ["a"; "b"; "c"]%byte ∧
  serve_body post_request [] evs
  = Some {| Readable.log :=
              [Readable.ObsData
                 [{| buf_address := 0; buf_length := 2 |};
                  {| buf_address := 1; buf_length := 1 |}]
                 ["X"; "b"; "c"]%byte;
               Readable.ObsEnd];
            Readable.finished := true |}.
Proof. split; reflexivity. Qed.

(** The same for any chunk: a consumer that reads after the transport
    has reused the memory of a pushed chunk reads what the memory holds
    then, cut to the length of the chunk. *)
Lemma pushed_chunk_is_a_view (c c' d : chunk) :
  ∃ k,
    serve_body post_request []
      [SockData c false; SockReuse 0 c'; SockData d true; Pull; Pull]
    = Some k ∧
    Readable.finished k = true ∧
    Readable.bytes_of (Readable.log k) = take (length c) c' ++ d.
Proof.
  eexists. split; [by apply serve_body_stream|].
  destruct c as [|b c], d as [|b' d]; simpl; split; try done;
    unfold view_bytes; simpl;
    by rewrite ?(right_id_L [] (++)), ?firstn_all.
Qed.

(** A consumer that reads each chunk before the transport reuses its
    memory reads the bytes pushed. *)
Example chunk_read_before_memory_reuse :
  serve_body post_request []
    [SockData ["a"; "b"]%byte false; Pull;
     SockReuse 0 ["X"; "b"]%byte;
     SockData ["c"]%byte true; Pull; Pull]
  = Some {| Readable.log :=
              [Readable.ObsData [{| buf_address := 0; buf_length := 2 |}]
                 ["a"; "b"]%byte;
               Readable.ObsData [{| buf_address := 1; buf_length := 1 |}]
                 ["c"]%byte;
               Readable.ObsEnd];
            Readable.finished := true |}.
Proof. reflexivity. Qed.

(** *** An abort and a zero-length last-flag chunk *)

Lemma push_buffer_Forall (P : Buffer → Prop) (c : option Buffer)
    (r : Readable.t) :
  Forall P (Readable.buffer r) → (∀ b, c = Some b → P b) →
  Forall P (Readable.buffer (Readable.push c r)).
Proof.
  intros Hr Hc. destruct r as [buf e1 d1 x1], c as [b|]; simpl in *.
  - destruct (buf_length b =? 0), e1, d1, x1; simpl; try done;
      apply Forall_app; split; try done;
      apply Forall_singleton; by apply Hc.
  - by destruct e1.
Qed.

Lemma read_buffer_Forall (P : Buffer → Prop) (mem : memory)
    (r : Readable.t) (k : Readable.consumer) :
  Forall P (Readable.buffer r) →
  Forall P (Readable.buffer (fst (Readable.read mem r k))).
Proof.
  intros Hr. destruct r as [buf e1 d1 x1], k as [lg fin].
  unfold Readable.read. simpl in *.
  destruct fin, x1, buf, e1; simpl; done.
Qed.

Lemma bounded_step (s : solo) (e : event) :
  bounded s → bounded (stream_step s e).
Proof.
  unfold bounded. destruct s as [mem r k]. simpl. intros Hb.
  destruct e as [c isLast| |a c|];
    cbn [stream_step so_memory so_stream so_consumer].
  - assert (Forall (fun v => buf_address v < length (mem ++ [c]))
              (Readable.buffer
                 (Readable.push (Some (Buffer_from (next_chunk mem c))) r)))
      as Hpush.
    { apply push_buffer_Forall.
      - eapply Forall_impl; [exact Hb|]. intros v Hv. simpl in Hv.
        rewrite length_app. simpl. lia.
      - intros b [= <-]. simpl. rewrite length_app. simpl. lia. }
    destruct isLast; [|done]. by apply push_buffer_Forall.
  - by apply push_buffer_Forall.
  - by rewrite length_insert.
  - pose proof (read_buffer_Forall _ mem r k Hb) as Hread.
    by destruct (Readable.read mem r k).
Qed.

Lemma bounded_run (evs : list event) :
  ∀ s, bounded s → bounded (stream_run s evs).
Proof.
  induction evs as [|e evs IH]; intros s Hb; [done|].
  simpl. apply IH. by apply bounded_step.
Qed.

Lemma bounded_fresh : bounded fresh_solo.
Proof. by apply Forall_nil. Qed.

Lemma view_bytes_alike (n : nat) (mem1 mem2 : memory) (v : Buffer) :
  take n mem1 = take n mem2 → buf_address v < n →
  view_bytes mem1 v = view_bytes mem2 v.
Proof.
  intros Hm Hv. unfold view_bytes.
  by rewrite <- (lookup_take_lt mem1 n), <- (lookup_take_lt mem2 n), Hm.
Qed.

Lemma read_alike (n : nat) (mem1 mem2 : memory) (r : Readable.t)
    (k : Readable.consumer) :
  take n mem1 = take n mem2 →
  Forall (fun v => buf_address v < n) (Readable.buffer r) →
  Readable.read mem1 r k = Readable.read mem2 r k.
Proof.
  intros Hm Hb. unfold Readable.read.
  destruct (Readable.finished k); [done|].
  destruct (Readable.errored r); [done|].
  destruct (Readable.buffer r) as [|b buf] eqn:Hbuf; [done|].
  assert (map (view_bytes mem1) (b :: buf)
          = map (view_bytes mem2) (b :: buf)) as ->; [|done].
  apply map_ext_Forall.
  eapply Forall_impl; [exact Hb|]. intros v Hv.
  by apply (view_bytes_alike n).
Qed.

Lemma push_ended (c : option Buffer) (r : Readable.t) :
  Readable.ended r = true →
  Readable.ended (Readable.push c r) = true ∧
  Readable.buffer (Readable.push c r) = Readable.buffer r.
Proof.
  destruct r as [buf e1 d1 x1], c as [b|]; simpl; intros ->; [|done].
  by destruct (buf_length b =? 0), d1.
Qed.

Lemma push_ended_length (b b' : Buffer) (r : Readable.t) :
  Readable.ended r = true → buf_length b = buf_length b' →
  Readable.push (Some b) r = Readable.push (Some b') r.
Proof.
  destruct r as [buf e1 d1 x1]. simpl. by intros -> ->.
Qed.

Lemma read_ended (mem : memory) (r : Readable.t) (k : Readable.consumer) :
  Readable.ended r = true →
  Readable.ended (fst (Readable.read mem r k)) = true.
Proof.
  destruct r as [buf e1 d1 x1], k as [lg fin]. unfold Readable.read.
  simpl. intros ->. by destruct fin, x1, buf.
Qed.

Lemma alike_step (n : nat) (s1 s2 : solo) (e : event) :
  alike n s1 s2 → alike n (stream_step s1 e) (stream_step s2 e).
Proof.
  destruct s1 as [mem1 r1 k1], s2 as [mem2 r2 k2]. unfold alike. simpl.
  intros (<- & <- & He & Hm & Hl1 & Hl2 & Hb).
  destruct e as [c isLast| |a c|];
    cbn [stream_step so_memory so_stream so_consumer].
  - rewrite (push_ended_length (Buffer_from (next_chunk mem1 c))
               (Buffer_from (next_chunk mem2 c)) r1 He eq_refl).
    set (r := Readable.push (Some (Buffer_from (next_chunk mem2 c))) r1).
    destruct (push_ended (Some (Buffer_from (next_chunk mem2 c))) r1 He)
      as [He' Hb'].
    fold r in He', Hb'.
    rewrite !take_app_le, !length_app by done.
    assert (Readable.ended (if isLast then Readable.push None r else r)
            = true ∧
            Readable.buffer (if isLast then Readable.push None r else r)
            = Readable.buffer r1) as [-> ->].
    { destruct isLast; [|done].
      destruct (push_ended None r He') as [-> ->]. done. }
    repeat split; try done; lia.
  - destruct (push_ended None r1 He) as [-> ->]. done.
  - rewrite !length_insert. repeat split; try done.
    destruct (decide (a < n)) as [Ha|Ha].
    + by rewrite !take_insert_lt, Hm by done.
    + by rewrite !take_insert_ge by lia.
  - rewrite <- (read_alike n mem1 mem2 r1 k1 Hm Hb).
    pose proof (read_ended mem1 r1 k1 He) as He'.
    pose proof (read_buffer_Forall _ mem1 r1 k1 Hb) as Hb'.
    destruct (Readable.read mem1 r1 k1) as [r' k']. done.
Qed.

Lemma alike_run (n : nat) (evs : list event) :
  ∀ s1 s2, alike n s1 s2 → alike n (stream_run s1 evs) (stream_run s2 evs).
Proof.
  induction evs as [|e evs IH]; intros s1 s2 Ha; [done|].
  simpl. apply IH. by apply alike_step.
Qed.

(** On an open stream the abort callback and a zero-length last-flag
    chunk differ only in the number of the next chunk. *)
Lemma abort_like_empty_last (s : solo) :
  bounded s →
  alike (length (so_memory s)) (stream_step s SockAborted)
        (stream_step s (SockData [] true)).
Proof.
  unfold bounded, alike. destruct s as [mem [buf e1 d1 x1] k]. simpl.
  intros Hb. rewrite take_app_length, take_ge, length_app by done.
  repeat split; try done; try lia; by destruct e1.
Qed.

(** C7, as the code has it: an abort that fires before the last-flag
    chunk ends the body stream exactly as a clean end-of-stream does (the
    consumer sees what it sees when a zero-length last-flag chunk arrives
    instead), and whatever arrives afterwards, the consumer is never
    handed a chunk pushed after the abort.  The stream then completes
    without error, with end-of-stream seen exactly once, unless a
    data-carrying chunk is pushed after the abort before the consumer's
    next turn: then the consumer gets an error as its next and last
    observation, and no end-of-stream. *)
Theorem abort_ends_stream (req : uWS.HttpRequest) (h : store)
    (pre post : list event) :
  carries_body (uWS.getMethod req) = true →
  forallb still_open pre = true →
  serve_body req h (pre ++ SockAborted :: post)
  = serve_body req h (pre ++ SockData [] true :: post) ∧
  (∃ k, serve_body req h (pre ++ SockAborted :: post) = Some k ∧
        Readable.views_of (Readable.log k) `prefix_of` pushed_views 0 pre) ∧
  (∃ k0 k,
     serve_body req h pre = Some k0 ∧
     serve_body req h (pre ++ SockAborted :: post ++ [Pull; Pull])
     = Some k ∧
     Readable.finished k = true ∧
     if undisturbed post
     then Readable.views_of (Readable.log k) = pushed_views 0 pre ∧
          Readable.count_ends (Readable.log k) = 1 ∧
          Readable.count_errors (Readable.log k) = 0 ∧
          last (Readable.log k) = Some Readable.ObsEnd
     else Readable.log k = Readable.log k0 ++ [Readable.ObsError] ∧
          Readable.count_ends (Readable.log k) = 0 ∧
          Readable.count_errors (Readable.log k) = 1).
Proof.
  intros Hc Hopen.
  pose proof (open_from_fresh pre Hopen) as Hpre.
  pose proof Hpre as (_ & _ & _ & _ & _ & Hce & Hcx).
  destruct (open_abort _ _ Hpre) as [Hpend Hlog].
  split; [|split].
  - rewrite !serve_body_stream by done. f_equal.
    change (pre ++ SockAborted :: post)
      with (pre ++ [SockAborted] ++ post).
    change (pre ++ SockData [] true :: post)
      with (pre ++ [SockData [] true] ++ post).
    rewrite !stream_run_app.
    assert (bounded (stream_run fresh_solo pre)) as Hb.
    { apply bounded_run, bounded_fresh. }
    apply abort_like_empty_last in Hb.
    apply alike_run with (evs := post) in Hb.
    by destruct Hb as (_ & Hk & _).
  - eexists. split; [by apply serve_body_stream|].
    change (pre ++ SockAborted :: post)
      with (pre ++ [SockAborted] ++ post).
    rewrite !stream_run_app.
    destruct Hpend as [Hsealed _].
    apply sealed_run with (evs := post) in Hsealed.
    destruct Hsealed as [_ <-]. by eexists.
  - eexists _, _. split; [by apply serve_body_stream|].
    split; [by apply serve_body_stream|].
    change (pre ++ SockAborted :: post ++ [Pull; Pull])
      with (pre ++ [SockAborted] ++ post ++ [Pull; Pull]).
    rewrite !stream_run_app.
    change (stream_run ?s [SockAborted]) with (stream_step s SockAborted).
    pose proof (seal_outcome post _ _ Hpend) as [Hfin Hout].
    cbn zeta in Hout. rewrite <- stream_run_app.
    split; [done|].
    destruct (undisturbed post); [done|].
    rewrite Hout, Hlog. split; [done|].
    rewrite count_ends_app, count_errors_app, Hce, Hcx. done.
Qed.

Lemma abort_ends_stream_witness :
  serve_body post_request []
    ([SockData ["a"]%byte false; Pull; SockData ["b"]%byte false]
     ++ SockAborted :: [SockData [] true; Pull; SockData ["z"]%byte false])
  = serve_body post_request []
      ([SockData ["a"]%byte false; Pull; SockData ["b"]%byte false]
       ++ SockData [] true
       :: [SockData [] true; Pull; SockData ["z"]%byte false]) ∧
  (∃ k, serve_body post_request []
          ([SockData ["a"]%byte false; Pull; SockData ["b"]%byte false]
           ++ SockAborted
           :: [SockData [] true; Pull; SockData ["z"]%byte false])
        = Some k ∧
        Readable.views_of (Readable.log k)
        `prefix_of` pushed_views 0 [SockData ["a"]%byte false; Pull;
                                    SockData ["b"]%byte false]) ∧
  (∃ k0 k,
     serve_body post_request []
       [SockData ["a"]%byte false; Pull; SockData ["b"]%byte false]
     = Some k0 ∧
     serve_body post_request []
       ([SockData ["a"]%byte false; Pull; SockData ["b"]%byte false]
        ++ SockAborted
        :: [SockData [] true; Pull; SockData ["z"]%byte false]
        ++ [Pull; Pull])
     = Some k ∧
     Readable.finished k = true ∧
     if undisturbed [SockData [] true; Pull; SockData ["z"]%byte false]
     then Readable.views_of (Readable.log k)
          = pushed_views 0 [SockData ["a"]%byte false; Pull;
                            SockData ["b"]%byte false] ∧
          Readable.count_ends (Readable.log k) = 1 ∧
          Readable.count_errors (Readable.log k) = 0 ∧
          last (Readable.log k) = Some Readable.ObsEnd
     else Readable.log k = Readable.log k0 ++ [Readable.ObsError] ∧
          Readable.count_ends (Readable.log k) = 0 ∧
          Readable.count_errors (Readable.log k) = 1).
Proof.
  apply (abort_ends_stream post_request []
           [SockData ["a"]%byte false; Pull; SockData ["b"]%byte false]
           [SockData [] true; Pull; SockData ["z"]%byte false]);
    reflexivity.
Defined.

(** C7 as stated fails: a data-carrying chunk pushed after the abort,
    before the consumer's next turn, is not delivered but makes the
    stream fail; the consumer sees an error and no end-of-stream. *)
Lemma chunk_after_abort_fails_stream :
  serve_body post_request []
    [SockData ["a"]%byte false; SockAborted; SockData ["z"]%byte false;
     Pull; Pull]
  = Some {| Readable.log := [Readable.ObsError];
            Readable.finished := true |}.
Proof. reflexivity. Qed.

(** Once the consumer has taken a turn after the abort, a late chunk is
    ignored and the stream ends cleanly. *)
Example chunk_after_abort_and_turn_is_ignored :
  serve_body post_request []
    [SockData ["a"]%byte false; SockAborted; Pull;
     SockData ["z"]%byte false; Pull]
  = Some {| Readable.log :=
              [Readable.ObsData [{| buf_address := 0; buf_length := 1 |}]
                 ["a"]%byte;
               Readable.ObsEnd];
            Readable.finished := true |}.
Proof. reflexivity. Qed.

(** ** The response writer *)

Section Writer.

Variable fires : nat -> bool.

Lemma emits_ret {A} (a : A) : emits fires (ret a) (Returned a) [].
Proof.
  intros s. split; [done|]. exists []. simpl.
  by rewrite (right_id_L [] (++)).
Qed.

Lemma emits_throw {A} (e : Exn) : emits fires (@throw _ A e) (Thrown e) [].
Proof.
  intros s. split; [done|]. exists []. simpl.
  by rewrite (right_id_L [] (++)).
Qed.

Lemma emits_sink (c : SinkCall) : emits fires (sink c) (Returned tt) [c].
Proof.
  intros s. split; [done|]. exists [EvSink (aborted s) c]. simpl.
  split; [done|]. split; [done|]. split.
  - by intros ->.
  - by intros _ ->.
Qed.

Lemma emits_suspend : emits fires (suspend fires) (Returned tt) [].
Proof.
  intros s. split; [done|]. exists [EvSuspend]. simpl.
  split; [done|]. split; [done|]. split.
  - by intros ->.
  - intros Hf ->. by rewrite Hf.
Qed.

Lemma emits_bind {A B} (m : Task A) (f : A -> Task B) (a : A)
    (r : result B) (cs cs' : list SinkCall) :
  emits fires m (Returned a) cs → emits fires (f a) r cs' →
  emits fires (bind m f) r (cs ++ cs').
Proof.
  intros Hm Hf s. unfold bind.
  destruct (Hm s) as (Hr & new & Ht & Hs & Ha & Hl).
  destruct (m s) as [[a'|e] s1]; simpl in *; [|done].
  injection Hr as ->.
  destruct (Hf s1) as (Hr' & new' & Ht' & Hs' & Ha' & Hl').
  split; [done|].
  exists (new ++ new'). rewrite Ht', Ht, (assoc_L (++)).
  split; [done|]. unfold sink_calls, calls_after_abort in *.
  rewrite !omap_app. split; [by rewrite Hs, Hs'|]. split.
  - intros Hs0. destruct (Ha Hs0) as [Hs1 ->].
    destruct (Ha' Hs1) as [Hs2 ->]. done.
  - intros Hn Hs0. destruct (Hl Hn Hs0) as [Hs1 ->].
    destruct (Hl' Hn Hs1) as [Hs2 ->]. done.
Qed.

Lemma emits_bind_thrown {A B} (m : Task A) (f : A -> Task B) (e : Exn)
    (cs : list SinkCall) :
  emits fires m (Thrown e) cs → emits fires (bind m f) (Thrown e) cs.
Proof.
  intros Hm s. unfold bind.
  destruct (Hm s) as (Hr & new & Ht & Hs & Ha & Hl).
  destruct (m s) as [[a'|e'] s1]; simpl in *; [done|].
  injection Hr as ->.
  split; [done|]. by exists new.
Qed.

Lemma emits_headers (hs : list (string * string)) :
  emits fires (for_each forward_header hs) (Returned tt) (header_calls hs).
Proof.
  induction hs as [|[k v] hs IH]; simpl; [apply emits_ret|].
  unfold header_calls. rewrite filter_cons.
  unfold forward_header, Str.eqb. simpl. case_bool_decide as Hk.
  - rewrite decide_False by (by intros ?).
    apply (emits_bind _ _ tt _ [] (header_calls hs));
      [apply emits_ret|apply IH].
  - rewrite decide_True by done.
    apply (emits_bind _ _ tt _ [WriteHeader k v] (header_calls hs));
      [apply emits_sink|apply IH].
Qed.

Lemma emits_for_await (chunks : list chunk) (failure : option Exn) :
  emits fires (for_await fires chunks failure (fun c => sink (Write c)))
        (match failure with Some e => Thrown e | None => Returned tt end)
        (map Write chunks).
Proof.
  induction chunks as [|c chunks IH]; simpl.
  - apply (emits_bind _ _ tt _ [] []); [apply emits_suspend|].
    destruct failure; [apply emits_throw|apply emits_ret].
  - apply (emits_bind _ _ tt _ [] (Write c :: map Write chunks));
      [apply emits_suspend|].
    apply (emits_bind _ _ tt _ [Write c] (map Write chunks));
      [apply emits_sink|apply IH].
Qed.

Lemma emits_respond (response : Response) :
  emits fires (respond fires response) (respond_result (body response))
        (WriteStatus (status_line response)
         :: header_calls (headers response)
         ++ body_calls (body response)).
Proof.
  unfold respond.
  apply (emits_bind _ _ tt _ [WriteStatus (status_line response)]
           (header_calls (headers response) ++ body_calls (body response)));
    [apply emits_sink|].
  apply (emits_bind _ _ tt _ (header_calls (headers response))
           (body_calls (body response)));
    [apply emits_headers|].
  destruct (body response) as [[bytes|chunks [e|]]|]; simpl.
  - apply emits_sink.
  - apply emits_bind_thrown. apply (emits_for_await chunks (Some e)).
  - apply (emits_bind _ _ tt _ (map Write chunks) [End None]);
      [apply (emits_for_await chunks None)|apply emits_sink].
  - apply emits_sink.
Qed.

End Writer.

Lemma written_calls (fires : nat -> bool) (response : Response) :
  written fires response
  = WriteStatus (status_line response)
    :: header_calls (headers response) ++ body_calls (body response).
Proof.
  unfold written.
  destruct (emits_respond fires response start)
    as (_ & new & Ht & Hs & _).
  by rewrite Ht.
Qed.

Lemma header_calls_preamble (hs : list (string * string)) :
  Forall (fun c => is_preamble c = true) (header_calls hs).
Proof.
  unfold header_calls. apply Forall_map, Forall_true.
  intros kv. reflexivity.
Qed.

Lemma header_calls_not_content_length (hs : list (string * string)) :
  Forall (fun c => forwards_content_length c = false) (header_calls hs).
Proof.
  unfold header_calls. apply Forall_map, Forall_forall.
  intros [k v] [Hk _]%list_elem_of_filter. simpl in *.
  by apply eqb_false.
Qed.

Lemma Forall_writes (P : SinkCall -> Prop) (chunks : list chunk) :
  (∀ c, P (Write c)) → Forall P (map Write chunks).
Proof. intros HP. apply Forall_map, Forall_true. intros c. apply HP. Qed.

Lemma body_calls_not_preamble (b : option ResponseBody) :
  Forall (fun c => is_preamble c = false) (body_calls b).
Proof.
  destruct b as [[bytes|chunks [e|]]|]; simpl;
    repeat first [apply Forall_app_2 | apply Forall_writes
                 | apply Forall_cons_2 | apply Forall_nil_2 ]; done.
Qed.

Lemma body_calls_not_header (b : option ResponseBody) :
  Forall (fun c => forwards_content_length c = false) (body_calls b).
Proof.
  destruct b as [[bytes|chunks [e|]]|]; simpl;
    repeat first [apply Forall_app_2 | apply Forall_writes
                 | apply Forall_cons_2 | apply Forall_nil_2 ]; done.
Qed.

Lemma count_skips_preamble (p : SinkCall -> bool) (cs rest : list SinkCall) :
  (∀ c, is_preamble c = true → p c = false) →
  Forall (fun c => is_preamble c = true) cs →
  filter (fun c => p c = true) (cs ++ rest)
  = filter (fun c => p c = true) rest.
Proof.
  intros Hp Hcs. rewrite filter_app.
  induction Hcs as [|c cs Hc _ IH]; [done|].
  rewrite filter_cons, decide_False; [done|].
  rewrite (Hp c Hc). done.
Qed.

Example status_line_200 :
  status_line (ok_response [] None) = "200 OK"%string.
Proof. reflexivity. Qed.

Example status_line_404 :
  status_line {| status := 404; statusText := "Not Found";
                 headers := []; body := None |} = "404 Not Found"%string.
Proof. reflexivity. Qed.

(** C2: on every response the writer first writes the status line
    [<status> <status text>], then one header call per response header,
    in the order given, leaving out exactly the headers named
    [content-length], and only then the calls that carry or end the body;
    no call ever forwards a [content-length] header. *)
Theorem status_then_headers_then_body (fires : nat -> bool)
    (response : Response) (s : TaskState) :
  ∃ new,
    trace (snd (respond fires response s)) = trace s ++ new ∧
    sink_calls new
    = WriteStatus (Str.of_N (status response) +:+ " "
                   +:+ statusText response)
      :: map (fun kv => WriteHeader (fst kv) (snd kv))
             (filter (fun kv => fst kv ≠ "content-length"%string)
                     (headers response))
      ++ body_calls (body response) ∧
    Forall (fun c => is_preamble c = false) (body_calls (body response)) ∧
    Forall (fun c => forwards_content_length c = false) (sink_calls new).
Proof.
  destruct (emits_respond fires response s) as (_ & new & Ht & Hs & _).
  exists new. split; [done|]. split; [done|].
  split; [apply body_calls_not_preamble|].
  rewrite Hs. apply Forall_cons_2; [done|]. apply Forall_app_2.
  - apply header_calls_not_content_length.
  - apply body_calls_not_header.
Qed.

(** On an input: a [content-length] header with an arbitrary value is
    dropped, the others keep their order. *)
Example content_length_dropped :
  written (fun _ => false)
    (ok_response [("content-type", "application/json");
                  ("content-length", "banana");
                  ("x-a", "1")]%string
                 (Some (Uint8Array ["h"; "i"]%byte)))
  = [WriteStatus "200 OK";
     WriteHeader "content-type" "application/json";
     WriteHeader "x-a" "1";
     End (Some ["h"; "i"]%byte)].
Proof. reflexivity. Qed.

Lemma count_writes_response (fires : nat -> bool) (response : Response) :
  count_writes (written fires response)
  = count_writes (body_calls (body response)).
Proof.
  rewrite written_calls. unfold count_writes.
  change (WriteStatus (status_line response)
          :: header_calls (headers response) ++ body_calls (body response))
    with ((WriteStatus (status_line response)
           :: header_calls (headers response))
          ++ body_calls (body response)).
  rewrite (count_skips_preamble is_write); [done| |].
  - by intros [].
  - apply Forall_cons_2; [done|]. apply header_calls_preamble.
Qed.

Lemma count_terminations_response (fires : nat -> bool) (response : Response) :
  count_terminations (written fires response)
  = count_terminations (body_calls (body response)).
Proof.
  rewrite written_calls. unfold count_terminations.
  change (WriteStatus (status_line response)
          :: header_calls (headers response) ++ body_calls (body response))
    with ((WriteStatus (status_line response)
           :: header_calls (headers response))
          ++ body_calls (body response)).
  rewrite (count_skips_preamble is_termination); [done| |].
  - by intros [].
  - apply Forall_cons_2; [done|]. apply header_calls_preamble.
Qed.

Lemma count_writes_chunks (chunks : list chunk) (rest : list SinkCall) :
  count_writes (map Write chunks ++ rest)
  = length chunks + count_writes rest.
Proof.
  unfold count_writes. induction chunks as [|c chunks IH]; [done|].
  cbn [map app]. rewrite filter_cons_True by done.
  cbn [length]. by rewrite IH.
Qed.

Lemma count_terminations_chunks (chunks : list chunk) (rest : list SinkCall) :
  count_terminations (map Write chunks ++ rest) = count_terminations rest.
Proof.
  unfold count_terminations. induction chunks as [|c chunks IH]; [done|].
  cbn [map app]. by rewrite filter_cons_False by done.
Qed.

(** C5, as the code has it.  After the status line and the headers:
    an immediate-buffer body is sent by a single termination call that
    carries all its bytes, with no write call at all; an asynchronous
    body that yields K chunks and completes is sent by K write calls in
    chunk order followed by one termination call without a body; a
    response without a body gets that termination call at once.  In each
    of the three cases the exchange is terminated exactly once. *)
Theorem body_written_then_ended (fires : nat -> bool) (st : N)
    (txt : string) (hs : list (string * string)) :
  let response b :=
    {| status := st; statusText := txt; headers := hs; body := b |} in
  (∀ bytes,
     written fires (response (Some (Uint8Array bytes)))
     = WriteStatus (status_line (response None))
       :: header_calls hs ++ [End (Some bytes)] ∧
     count_writes (written fires (response (Some (Uint8Array bytes)))) = 0 ∧
     count_terminations (written fires (response (Some (Uint8Array bytes)))) = 1) ∧
  (∀ chunks,
     written fires (response (Some (AsyncIterable chunks None)))
     = WriteStatus (status_line (response None))
       :: header_calls hs ++ map Write chunks ++ [End None] ∧
     count_writes (written fires (response (Some (AsyncIterable chunks None))))
     = length chunks ∧
     count_terminations (written fires (response (Some (AsyncIterable chunks None))))
     = 1) ∧
  (written fires (response None)
   = WriteStatus (status_line (response None))
     :: header_calls hs ++ [End None] ∧
   count_writes (written fires (response None)) = 0 ∧
   count_terminations (written fires (response None)) = 1).
Proof.
  intros response. split; [|split].
  - intros bytes.
    rewrite count_writes_response, count_terminations_response, written_calls.
    done.
  - intros chunks.
    rewrite count_writes_response, count_terminations_response, written_calls.
    simpl. rewrite count_writes_chunks, count_terminations_chunks.
    split; [done|]. split; [|done]. unfold count_writes. simpl. lia.
  - rewrite count_writes_response, count_terminations_response, written_calls.
    done.
Qed.

(** C5 as stated fails: an immediate-buffer body of two bytes produces
    no write call; its bytes travel in the termination call. *)
Lemma buffer_body_has_no_write_call :
  written (fun _ => false)
    (ok_response [] (Some (Uint8Array ["h"; "i"]%byte)))
  = [WriteStatus "200 OK"; End (Some ["h"; "i"]%byte)] ∧
  count_writes
    (written (fun _ => false)
       (ok_response [] (Some (Uint8Array ["h"; "i"]%byte)))) = 0.
Proof. split; reflexivity. Qed.

(** ** The handler as a whole *)

Lemma emits_yogaHandler (fires : nat -> bool)
    (yoga_fetch : FetchArgs -> result Response)
    (req : uWS.HttpRequest) (h : store) :
  let args := fst (fst (adapt req h)) in
  emits fires (yogaHandler fires yoga_fetch req h)
    (match yoga_fetch args with
     | Returned response => respond_result (body response)
     | Thrown e => Thrown e
     end)
    (match yoga_fetch args with
     | Returned response =>
         WriteStatus (status_line response)
         :: header_calls (headers response) ++ body_calls (body response)
     | Thrown _ => []
     end).
Proof.
  unfold yogaHandler. destruct (adapt req h) as [[args res] h']. simpl.
  apply (emits_bind fires _ _ (yoga_fetch args) _ []).
  { intros s. split; [done|]. exists [EvFetch args]. simpl.
    split; [done|]. split; [done|]. split; [by intros ->|by intros _ ->]. }
  unfold await. destruct (yoga_fetch args) as [response|e].
  - apply (emits_bind fires _ _ response _ []); [|apply emits_respond].
    apply (emits_bind fires _ _ tt _ [] []);
      [apply emits_suspend|apply emits_ret].
  - apply emits_bind_thrown.
    apply (emits_bind fires _ _ tt _ [] []);
      [apply emits_suspend|apply emits_throw].
Qed.

Lemma yogaHandler_unfold (fires : nat -> bool)
    (yoga_fetch : FetchArgs -> result Response)
    (req : uWS.HttpRequest) (h : store) (s : TaskState) :
  let args := fst (fst (adapt req h)) in
  let s' := {| aborted := aborted s || fires (suspensions s);
               suspensions := S (suspensions s);
               trace := (trace s ++ [EvFetch args]) ++ [EvSuspend] |} in
  yogaHandler fires yoga_fetch req h s
  = match yoga_fetch args with
    | Returned response => respond fires response s'
    | Thrown e => (Thrown e, s')
    end.
Proof.
  unfold yogaHandler. destruct (adapt req h) as [[args res] h']. simpl.
  unfold bind, call_fetch, await, bind, suspend. simpl.
  by destruct (yoga_fetch args).
Qed.

(** C9, as the code has it: the writer never consults the abort signal.
    Whenever the abort fires, the handler returns the same way and puts
    the same status, header, chunk and termination calls on the exchange
    as on an exchange that is never aborted; when the abort fires while
    [yoga.fetch] is pending, every one of these calls is issued after
    it.  Discarding them is left to the sink. *)
Theorem writer_ignores_abort (fires : nat -> bool)
    (yoga_fetch : FetchArgs -> result Response)
    (req : uWS.HttpRequest) (h : store) :
  let run f := yogaHandler f yoga_fetch req h start in
  fst (run fires) = fst (run (fun _ => false)) ∧
  sink_calls (trace (snd (run fires)))
  = sink_calls (trace (snd (run (fun _ => false)))) ∧
  calls_after_abort (trace (snd (run (fun _ => false)))) = [] ∧
  calls_after_abort (trace (snd (run (fun _ => true))))
  = sink_calls (trace (snd (run (fun _ => false)))).
Proof.
  intros run. unfold run.
  destruct (emits_yogaHandler fires yoga_fetch req h start)
    as (Hr & new & Ht & Hs & _).
  destruct (emits_yogaHandler (fun _ => false) yoga_fetch req h start)
    as (Hr0 & new0 & Ht0 & Hs0 & _ & Hl0).
  split; [by rewrite Hr, Hr0|]. rewrite Ht, Ht0. simpl.
  split; [by rewrite Hs, Hs0|].
  split; [by apply Hl0|].
  rewrite Hs0, yogaHandler_unfold. simpl.
  destruct (yoga_fetch (adapt req h).1.1) as [response|e]; [|done].
  match goal with
  | |- context [respond _ response ?s] =>
      destruct (emits_respond (fun _ => true) response s)
        as (_ & new1 & Ht1 & _ & Ha1 & _)
  end.
  rewrite Ht1. simpl. unfold calls_after_abort in *.
  by apply Ha1.
Qed.

(** C9 as stated fails: when the abort fires while the second chunk of
    a streamed body is awaited, the writer still writes that chunk and
    the next one and terminates the exchange. *)
Lemma writes_issued_after_abort :
  calls_after_abort
    (trace (snd (yogaHandler
                   (fun n => bool_decide (n = 2))
                   (fun _ => Returned
                      (ok_response []
                         (Some (AsyncIterable
                                  [["a"]; ["b"]; ["c"]]%byte None))))
                   get_request [] start)))
  = [Write ["b"]%byte; Write ["c"]%byte; End None].
Proof. reflexivity. Qed.

(** C8: the header mapping in the arguments of [yoga.fetch] holds, for
    every header name, the value of the last header of that name the
    socket layer reported (a header named [__proto__] cannot become a
    key); its keys are lower-cased; and the call of [yoga.fetch] that
    carries the complete mapping is the first thing the handler does,
    before it suspends for the first time. *)
Theorem headers_copied_eagerly (fires : nat -> bool)
    (yoga_fetch : FetchArgs -> result Response)
    (req : uWS.HttpRequest) (h : store) :
  let args := fst (fst (adapt req h)) in
  (∀ k, init_headers (fetch_init args) !! k
        = if Str.eqb k "__proto__" then None
          else last_written k (uWS.entries req)) ∧
  map_Forall (fun k _ => Str.is_lower k) (init_headers (fetch_init args)) ∧
  ∃ rest,
    trace (snd (yogaHandler fires yoga_fetch req h start))
    = EvFetch args :: EvSuspend :: rest.
Proof.
  intros args.
  assert (init_headers (fetch_init args) = copy_headers req) as ->.
  { unfold args, adapt. by destruct (carries_body _). }
  split; [apply copy_headers_lookup|]. split.
  - intros k v Hk. rewrite copy_headers_lookup in Hk.
    destruct (Str.eqb k "__proto__"); [done|].
    eapply entries_lower, last_written_key, Hk.
  - rewrite yogaHandler_unfold. fold args. simpl.
    destruct (yoga_fetch args) as [response|e].
    + match goal with
      | |- context [respond _ response ?s] =>
          destruct (emits_respond fires response s)
            as (_ & new & Ht & Hs & _)
      end.
      exists new. by rewrite Ht.
    + by exists [].
Qed.

Example last_header_wins :
  let hs := init_headers (fetch_init (fst (fst (adapt post_request [])))) in
  hs !! "x-trace"%string = Some "b"%string ∧
  hs !! "content-type"%string = Some "application/json"%string ∧
  hs !! "X-Trace"%string = None.
Proof. repeat split; vm_compute; reflexivity. Qed.

Example proto_header_not_stored :
  copy_headers {| uWS.wire_method := "POST"; uWS.wire_url := "/";
                  uWS.wire_headers := [("__proto__", "x"); ("A", "1")]%string |}
  = {[ "a"%string := "1"%string ]}.
Proof. vm_compute. reflexivity. Qed.

(** ** The bridge *)

Section BridgeProperties.

Context {Schema Document ContextValue GraphQLError Variables Ctx
         ExecutionResult : Type}.

Abbreviation Args :=
  (@EnvelopedExecutionArgs Schema Document ContextValue Variables).
Abbreviation Env :=
  (@Enveloped Schema Document ContextValue GraphQLError).
Abbreviation Engine :=
  (@Yoga Schema Document ContextValue GraphQLError Ctx).
Abbreviation Message := (@SubscribeMessage Variables).
Abbreviation Event :=
  (@BridgeEvent Schema Document ContextValue GraphQLError Variables Ctx).

Variable apply : fn_ref -> Args -> result ExecutionResult.
Variable operation_type : Document -> option string -> option OperationType.
Variable unidentified_operation : GraphQLError.

Abbreviation start_op := (start_operation apply operation_type
                            unidentified_operation).
Abbreviation expected := (expected_invocation operation_type).

(** What [onSubscribe] returns and does, case by case. *)
Lemma onSubscribe_run (yoga : Engine) (ctx : Ctx) (msg : Message)
    (l : list Event) :
  let env := getEnveloped yoga ctx in
  let q := p_query (payload msg) in
  wsHandler_onSubscribe yoga ctx msg l
  = match env_parse env q with
    | Thrown e => (Thrown e, l ++ [EvGetEnveloped ctx; EvParse q])
    | Returned doc =>
        match env_contextFactory env with
        | Thrown e =>
            (Thrown e,
             l ++ [EvGetEnveloped ctx; EvParse q; EvContextFactory])
        | Returned cv =>
            let errors := env_validate env (env_schema env) doc in
            (Returned (match errors with
                       | [] => inr (built_args env msg doc cv)
                       | _ :: _ => inl errors
                       end),
             l ++ [EvGetEnveloped ctx; EvParse q; EvContextFactory;
                   EvValidate (env_schema env) doc])
        end
    end.
Proof.
  intros env q. unfold wsHandler_onSubscribe, call, emit, bind, ret, throw.
  fold env. fold q. simpl.
  destruct (env_parse env q) as [doc|e]; simpl.
  - destruct (env_contextFactory env) as [cv|e]; simpl.
    + rewrite <- !(assoc_L (++)). simpl.
      by destruct (env_validate env (env_schema env) doc).
    + by rewrite <- !(assoc_L (++)).
  - by rewrite <- !(assoc_L (++)).
Qed.

Lemma start_operation_run (yoga : Engine) (ctx : Ctx) (msg : Message)
    (l : list Event) :
  let r := wsHandler_onSubscribe yoga ctx msg [] in
  snd (start_op yoga ctx msg l)
  = l ++ snd r
      ++ match fst r with
         | Returned (inl errors) => [EvSendError (msg_id msg) errors]
         | Returned (inr args) =>
             match operation_type (document args) (operationName args) with
             | None => [EvSendError (msg_id msg) [unidentified_operation]]
             | Some Subscription =>
                 [EvSubscribe (rv_subscribe (rootValue args)) args]
             | Some _ => [EvExecute (rv_execute (rootValue args)) args]
             end
         | Thrown _ => []
         end.
Proof.
  intros r. unfold r, start_operation, bind.
  rewrite !onSubscribe_run. simpl.
  destruct (env_parse _ _) as [doc|e]; simpl; [|done].
  destruct (env_contextFactory _) as [cv|e]; simpl; [|done].
  destruct (env_validate _ _ doc) as [|err errs]; simpl.
  - destruct (operation_type _ _) as [[| |]|]; simpl;
      unfold wsHandler_subscribe, wsHandler_execute, call, emit, bind,
        ret, throw; simpl;
      try destruct (apply _ _); simpl; by rewrite <- !(assoc_L (++)).
  - unfold emit. simpl. by rewrite <- !(assoc_L (++)).
Qed.

Lemma onSubscribe_invokes_nothing (yoga : Engine) (ctx : Ctx)
    (msg : Message) :
  invocations (snd (wsHandler_onSubscribe yoga ctx msg [])) = [].
Proof.
  rewrite onSubscribe_run. simpl.
  destruct (env_parse _ _) as [doc|e]; simpl; [|done].
  by destruct (env_contextFactory _).
Qed.

Lemma start_operation_invocations (yoga : Engine) (ctx : Ctx)
    (msg : Message) (l : list Event) :
  invocations (snd (start_op yoga ctx msg l))
  = invocations l ++ expected yoga ctx msg.
Proof.
  rewrite start_operation_run. unfold invocations at 1.
  rewrite !omap_app. fold (invocations l).
  fold (invocations (snd (wsHandler_onSubscribe yoga ctx msg []))).
  rewrite onSubscribe_invokes_nothing. simpl. f_equal.
  unfold expected_invocation. rewrite onSubscribe_run. simpl.
  destruct (env_parse _ _) as [doc|e]; simpl; [|done].
  destruct (env_contextFactory _) as [cv|e]; simpl; [|done].
  destruct (env_validate _ _ doc) as [|err errs]; simpl; [|done].
  by destruct (operation_type _ _) as [[| |]|].
Qed.

Lemma serve_invocations (ctx : Ctx) (frames : list (Engine * Message)) :
  ∀ l : list Event,
    let served := serve apply operation_type unidentified_operation
                    ctx frames l in
    invocations (snd served)
    = invocations l
      ++ flat_map (fun fr => expected (fst fr) ctx (snd fr))
                  (take (length (fst served)) frames) ∧
    (length (fst served) = length frames ∨
     ∃ e, last (fst served) = Some (Thrown e)).
Proof.
  induction frames as [|[y m] frames IH]; intros l; simpl.
  { split; [by rewrite (right_id_L [] (++))|by left]. }
  pose proof (start_operation_invocations y ctx m l) as Hop.
  destruct (start_op y ctx m l) as [[u|e] l'] eqn:Hs; simpl in *.
  - destruct (IH l') as [Hinv Hlen].
    destruct (serve _ _ _ ctx frames l') as [rs l''] eqn:Hr. simpl in *.
    split.
    + by rewrite Hinv, Hop, (assoc_L (++)).
    + destruct Hlen as [->|[e He]]; [by left|right].
      exists e. destruct rs; [done|]. done.
  - split; [|right; by exists e].
    by rewrite (right_id_L [] (++)).
Qed.

(** What the spec expects of a frame after [execute] was swapped: the
    new [execute] where the old one was expected, all else the same. *)
Lemma expected_after_swap (yoga : Engine) (ctx : Ctx) (msg : Message)
    (f : fn_ref) :
  map (fun i : bool * fn_ref * Args => (fst (fst i), snd (fst i)))
      (expected (swap_execute f yoga) ctx msg)
  = map (fun i : bool * fn_ref * Args =>
           (fst (fst i), if fst (fst i) then snd (fst i) else f))
        (expected yoga ctx msg).
Proof.
  unfold expected_invocation. simpl.
  destruct (env_parse _ _) as [doc|e]; simpl; [|done].
  destruct (env_contextFactory _) as [cv|e]; simpl; [|done].
  destruct (env_validate _ _ doc) as [|err errs]; simpl; [|done].
  by destruct (operation_type _ _) as [[| |]|].
Qed.

(** C1: on one connection, the implementations the bridge invokes are,
    frame by frame, exactly the ones the enveloped-context resolution
    returns from the engine as it is wired when that frame arrives, on the
    arguments built for that frame; nothing resolved for an earlier frame
    is used.  The chain is: [onSubscribe] returns the arguments built from
    what [getEnveloped] returned for this frame, with the resolved
    [execute] and [subscribe] in their [rootValue]; [execute] and
    [subscribe] of the behaviour call what the [rootValue] of their
    argument holds, whatever the argument.  So an operation started after
    the engine's [execute] was swapped invokes the new [execute]. *)
Theorem implementations_resolved_per_operation (ctx : Ctx)
    (frames : list (Engine * Message)) (l : list Event)
    (yoga : Engine) (msg : Message) (f : fn_ref) (args : Args) :
  let served := serve apply operation_type unidentified_operation
                  ctx frames l in
  let env := getEnveloped yoga ctx in
  invocations (snd served)
  = invocations l
    ++ flat_map (fun fr => expected (fst fr) ctx (snd fr))
                (take (length (fst served)) frames) ∧
  (length (fst served) = length frames ∨
   ∃ e, last (fst served) = Some (Thrown e)) ∧
  fst (wsHandler_onSubscribe yoga ctx msg l)
  = match env_parse env (p_query (payload msg)) with
    | Thrown e => Thrown e
    | Returned doc =>
        match env_contextFactory env with
        | Thrown e => Thrown e
        | Returned cv =>
            Returned
              (match env_validate env (env_schema env) doc with
               | [] =>
                   inr {| schema := env_schema env;
                          operationName := p_operationName (payload msg);
                          document := doc;
                          variableValues := p_variables (payload msg);
                          contextValue := cv;
                          rootValue :=
                            {| rv_execute := env_execute env;
                               rv_subscribe := env_subscribe env |} |}
               | err :: errs => inl (err :: errs)
               end)
        end
    end ∧
  snd (wsHandler_execute apply args l)
  = l ++ [EvExecute (rv_execute (rootValue args)) args] ∧
  snd (wsHandler_subscribe apply args l)
  = l ++ [EvSubscribe (rv_subscribe (rootValue args)) args] ∧
  map (fun i : bool * fn_ref * Args => (fst (fst i), snd (fst i)))
      (invocations (snd (start_op (swap_execute f yoga) ctx msg l)))
  = map (fun i : bool * fn_ref * Args => (fst (fst i), snd (fst i)))
        (invocations l)
    ++ map (fun i : bool * fn_ref * Args =>
              (fst (fst i), if fst (fst i) then snd (fst i) else f))
           (expected yoga ctx msg).
Proof.
  intros served env.
  destruct (serve_invocations ctx frames l) as [Hinv Hlen].
  split; [done|]. split; [done|]. split; [|split; [|split]].
  - rewrite onSubscribe_run. fold env.
    destruct (env_parse env _) as [doc|e]; [|done].
    destruct (env_contextFactory env) as [cv|e]; [|done].
    simpl. by destruct (env_validate env (env_schema env) doc).
  - unfold wsHandler_execute, call, emit, bind, ret, throw. simpl.
    by destruct (apply _ _).
  - unfold wsHandler_subscribe, call, emit, bind, ret, throw. simpl.
    by destruct (apply _ _).
  - by rewrite start_operation_invocations, map_app, expected_after_swap.
Qed.

(** C10: [onSubscribe] first resolves the enveloped functions, then
    parses the query text, then awaits the context factory, and only then
    validates.  A query that does not parse makes it throw the parse
    exception right after the first two steps: no error list is returned.
    For every query that parses, the context factory runs before
    validation, so the context value is built also when validation then
    fails; the outcome is the whole error list in that case and the built
    arguments otherwise. *)
Theorem onSubscribe_order (yoga : Engine) (ctx : Ctx) (msg : Message)
    (l : list Event) :
  let env := getEnveloped yoga ctx in
  let q := p_query (payload msg) in
  let r := wsHandler_onSubscribe yoga ctx msg l in
  match env_parse env q with
  | Thrown e => r = (Thrown e, l ++ [EvGetEnveloped ctx; EvParse q])
  | Returned doc =>
      ∃ rest,
        snd r = l ++ [EvGetEnveloped ctx; EvParse q; EvContextFactory]
                  ++ rest ∧
        match env_contextFactory env with
        | Thrown e => fst r = Thrown e ∧ rest = []
        | Returned cv =>
            rest = [EvValidate (env_schema env) doc] ∧
            fst r = Returned
                      (match env_validate env (env_schema env) doc with
                       | [] => inr (built_args env msg doc cv)
                       | err :: errs => inl (err :: errs)
                       end)
        end
  end.
Proof.
  intros env q r. unfold r. rewrite onSubscribe_run. fold env. fold q.
  destruct (env_parse env q) as [doc|e]; [|done].
  destruct (env_contextFactory env) as [cv|e]; simpl.
  - exists [EvValidate (env_schema env) doc]. split; [done|].
    split; [done|].
    by destruct (env_validate env (env_schema env) doc).
  - by exists [].
Qed.

(** C4: when validation of the parsed document returns a non-empty
    error list, [onSubscribe] returns that whole list, the operation's
    only message is the error message carrying the whole list, and
    neither [execute] nor [subscribe] is invoked. *)
Theorem validation_errors_end_operation (yoga : Engine) (ctx : Ctx)
    (msg : Message) (l : list Event) (doc : Document)
    (cv : ContextValue) :
  let env := getEnveloped yoga ctx in
  let errors := env_validate env (env_schema env) doc in
  env_parse env (p_query (payload msg)) = Returned doc →
  env_contextFactory env = Returned cv →
  errors ≠ [] →
  fst (wsHandler_onSubscribe yoga ctx msg l) = Returned (inl errors) ∧
  start_op yoga ctx msg l
  = (Returned tt,
     l ++ [EvGetEnveloped ctx; EvParse (p_query (payload msg));
           EvContextFactory; EvValidate (env_schema env) doc;
           EvSendError (msg_id msg) errors]) ∧
  invocations (snd (start_op yoga ctx msg l))
  = invocations l.
Proof.
  intros env errors Hp Hc He.
  split; [|split].
  - rewrite onSubscribe_run. fold env. rewrite Hp, Hc. simpl.
    fold errors. by destruct errors.
  - unfold start_operation, bind. rewrite onSubscribe_run. fold env.
    rewrite Hp, Hc. simpl. fold errors. destruct errors; [done|].
    unfold emit. simpl. by rewrite <- !(assoc_L (++)).
  - rewrite start_operation_invocations.
    unfold expected_invocation. fold env.
    rewrite Hp, Hc. fold errors. destruct errors; [done|].
    by rewrite (right_id_L [] (++)).
Qed.

End BridgeProperties.

Lemma validation_errors_end_operation_witness :
  let msg := sample_message "1" "{ invalidField }" in
  let errors :=
    ["Cannot query field invalidField on type Query"; "Unknown type"]%string in
  fst (wsHandler_onSubscribe (sample_yoga 3) tt msg []) = Returned (inl errors) ∧
  start_operation sample_apply sample_operation_type "Unable to identify operation"%string (sample_yoga 3) tt msg []
  = (Returned tt,
     [] ++ [EvGetEnveloped tt; EvParse "{ invalidField }"; EvContextFactory;
            EvValidate tt "{ invalidField }"; EvSendError "1" errors]) ∧
  invocations
    (snd (start_operation sample_apply sample_operation_type "Unable to identify operation"%string
            (sample_yoga 3) tt msg []))
  = invocations (@nil (@BridgeEvent unit string unit string unit unit)).
Proof.
  apply (validation_errors_end_operation sample_apply sample_operation_type "Unable to identify operation"%string
           (sample_yoga 3) tt (sample_message "1" "{ invalidField }") []
           "{ invalidField }"%string tt).
  - reflexivity.
  - reflexivity.
  - vm_compute. discriminate.
Defined.

(** On inputs: a query that does not parse makes [onSubscribe] throw
    before the context factory runs; a query that fails validation has
    its context value built first. *)
Example malformed_query_throws :
  wsHandler_onSubscribe (sample_yoga 3) tt (sample_message "1" "{") []
  = (Thrown "Syntax Error: Expected Name",
     [EvGetEnveloped tt; EvParse "{"]).
Proof. reflexivity. Qed.

Example context_built_before_validation :
  snd (wsHandler_onSubscribe (sample_yoga 3) tt
         (sample_message "1" "{ invalidField }") [])
  = [EvGetEnveloped tt; EvParse "{ invalidField }"; EvContextFactory;
     EvValidate tt "{ invalidField }"].
Proof. reflexivity. Qed.

Example parse_exception_closes_socket :
  let served :=
    serve sample_apply sample_operation_type
      "Unable to identify operation"%string tt
      [(sample_yoga 3, sample_message "1" "{");
       (sample_yoga 3, sample_message "2" "{ hello }")] [] in
  fst served = [Thrown "Syntax Error: Expected Name"] ∧
  invocations (snd served) = [].
Proof. split; reflexivity. Qed.

(** On inputs: the same query before and after [execute] is swapped
    from function 3 to function 4, and a subscription. *)
Example swapped_execute_is_invoked :
  map (fun i : bool * fn_ref * _ => (fst (fst i), snd (fst i)))
    (invocations
       (snd (serve sample_apply sample_operation_type
               "Unable to identify operation"%string tt
               [(sample_yoga 3, sample_message "1" "{ hello }");
                (swap_execute 4 (sample_yoga 3),
                 sample_message "2" "{ hello }");
                (sample_yoga 3, sample_message "3" "{ invalidField }");
                (sample_yoga 5,
                 sample_message "4" "subscription { time }")]
               [])))
  = [(false, 3); (false, 4); (true, 7)].
Proof. reflexivity. Qed.

(** * Further properties of the handlers *)

(** ** When the handler fails *)

(** X1: when [yoga.fetch] rejects, the handler rejects with the same
    exception after its one suspension and has not touched the sink: no
    status, no header, no chunk and no termination call is made for the
    exchange. *)
Theorem fetch_rejection_writes_nothing (fires : nat -> bool)
    (yoga_fetch : FetchArgs -> result Response)
    (req : uWS.HttpRequest) (h : store) (e : Exn) :
  yoga_fetch (fst (fst (adapt req h))) = Thrown e →
  fst (yogaHandler fires yoga_fetch req h start) = Thrown e ∧
  trace (snd (yogaHandler fires yoga_fetch req h start))
  = [EvFetch (fst (fst (adapt req h))); EvSuspend] ∧
  sink_calls (trace (snd (yogaHandler fires yoga_fetch req h start))) = [].
Proof.
  intros He. rewrite yogaHandler_unfold, He. by simpl.
Qed.

Lemma fetch_rejection_writes_nothing_witness :
  fst (yogaHandler (fun _ => false) (fun _ => Thrown "boom"%string)
         post_request [] start) = Thrown "boom"%string ∧
  trace (snd (yogaHandler (fun _ => false) (fun _ => Thrown "boom"%string)
                post_request [] start))
  = [EvFetch (fst (fst (adapt post_request []))); EvSuspend] ∧
  sink_calls
    (trace (snd (yogaHandler (fun _ => false)
                   (fun _ => Thrown "boom"%string)
                   post_request [] start))) = [].
Proof.
  apply (fetch_rejection_writes_nothing (fun _ => false)
           (fun _ => Thrown "boom"%string) post_request [] "boom"%string).
  reflexivity.
Defined.

(** X2: when an asynchronous body rejects after yielding some chunks,
    the writer has already put the status line, the headers and those
    chunks on the exchange; it rejects with the body's exception and
    never terminates the exchange. *)
Theorem failed_body_leaves_exchange_open (fires : nat -> bool) (st : N)
    (txt : string) (hs : list (string * string)) (chunks : list chunk)
    (e : Exn) :
  let response :=
    {| status := st; statusText := txt; headers := hs;
       body := Some (AsyncIterable chunks (Some e)) |} in
  fst (respond fires response start) = Thrown e ∧
  written fires response
  = WriteStatus (status_line response)
    :: header_calls hs ++ map Write chunks ∧
  count_writes (written fires response) = length chunks ∧
  count_terminations (written fires response) = 0.
Proof.
  intros response.
  destruct (emits_respond fires response start) as (Hr & _).
  split; [done|].
  rewrite count_writes_response, count_terminations_response, written_calls.
  simpl. split; [done|].
  rewrite <- (right_id_L [] (++) (map Write chunks)).
  rewrite count_writes_chunks, count_terminations_chunks.
  split; [|done]. unfold count_writes. simpl. lia.
Qed.

Lemma body_calls_terminated (b : option ResponseBody) :
  match respond_result b with
  | Returned _ =>
      count_terminations (body_calls b) = 1 ∧
      ∃ bytes, last (body_calls b) = Some (End bytes)
  | Thrown _ => count_terminations (body_calls b) = 0
  end.
Proof.
  destruct b as [[bytes|chunks [e|]]|]; simpl.
  - split; [done|by eexists].
  - rewrite <- (right_id_L [] (++) (map Write chunks)).
    by rewrite count_terminations_chunks.
  - rewrite count_terminations_chunks, last_snoc. split; [done|by eexists].
  - split; [done|by eexists].
Qed.

Lemma count_terminations_preamble (cs rest : list SinkCall) :
  Forall (fun c => is_preamble c = true) cs →
  count_terminations (cs ++ rest) = count_terminations rest.
Proof.
  intros Hcs. unfold count_terminations.
  rewrite (count_skips_preamble is_termination); [done| |done].
  by intros [].
Qed.

Lemma last_app_cons {A} (l : list A) (l' : list A) (x : A) :
  last l' = Some x → last (l ++ l') = Some x.
Proof.
  intros Hl. destruct l' as [|y l'] using rev_ind; [done|].
  rewrite last_snoc in Hl. injection Hl as ->.
  by rewrite (assoc_L (++)), last_snoc.
Qed.

(** X3: the handler terminates the exchange exactly once when it returns,
    and then the termination call is its last call; it never terminates
    the exchange when it throws. *)
Theorem exchange_terminated_iff_handler_returns (fires : nat -> bool)
    (yoga_fetch : FetchArgs -> result Response)
    (req : uWS.HttpRequest) (h : store) :
  let run := yogaHandler fires yoga_fetch req h start in
  let calls := sink_calls (trace (snd run)) in
  match fst run with
  | Returned _ =>
      count_terminations calls = 1 ∧ ∃ bytes, last calls = Some (End bytes)
  | Thrown _ => count_terminations calls = 0
  end.
Proof.
  intros run calls. unfold calls, run.
  destruct (emits_yogaHandler fires yoga_fetch req h start)
    as (Hr & new & Ht & Hs & _).
  rewrite Hr, Ht. simpl. rewrite Hs.
  destruct (yoga_fetch (adapt req h).1.1) as [response|e]; [|done].
  pose proof (body_calls_terminated (body response)) as Hb.
  assert (Forall (fun c => is_preamble c = true)
            (WriteStatus (status_line response)
             :: header_calls (headers response))) as Hpre.
  { apply Forall_cons_2; [done|]. apply header_calls_preamble. }
  change (WriteStatus (status_line response)
          :: header_calls (headers response) ++ body_calls (body response))
    with ((WriteStatus (status_line response)
           :: header_calls (headers response))
          ++ body_calls (body response)).
  rewrite (count_terminations_preamble _ _ Hpre).
  destruct (respond_result (body response)); [|done].
  destruct Hb as [Hc [bytes Hl]]. split; [done|].
  exists bytes. by apply last_app_cons.
Qed.

(** ** Responses that are not streamed *)

Lemma at_once_ret {A} (a : A) : issues_at_once (ret a) a [].
Proof.
  intros s. unfold ret. simpl. rewrite (right_id_L [] (++)). by destruct s.
Qed.

Lemma at_once_sink (c : SinkCall) : issues_at_once (sink c) tt [c].
Proof. by intros s. Qed.

Lemma at_once_bind {A B} (m : Task A) (f : A -> Task B) (a : A) (b : B)
    (cs cs' : list SinkCall) :
  issues_at_once m a cs → issues_at_once (f a) b cs' →
  issues_at_once (bind m f) b (cs ++ cs').
Proof.
  intros Hm Hf s. unfold bind. rewrite Hm, Hf. simpl.
  by rewrite map_app, (assoc_L (++)).
Qed.

Lemma at_once_headers (hs : list (string * string)) :
  issues_at_once (for_each forward_header hs) tt (header_calls hs).
Proof.
  induction hs as [|[k v] hs IH]; simpl; [apply at_once_ret|].
  unfold header_calls. rewrite filter_cons.
  unfold forward_header, Str.eqb. simpl. case_bool_decide as Hk.
  - rewrite decide_False by (by intros ?).
    apply (at_once_bind _ _ tt tt [] (header_calls hs));
      [apply at_once_ret|apply IH].
  - rewrite decide_True by done.
    apply (at_once_bind _ _ tt tt [WriteHeader k v] (header_calls hs));
      [apply at_once_sink|apply IH].
Qed.

(** X4: a response whose body is an immediate buffer or absent is
    written without a single suspension: the status line, the headers
    and the termination call are issued in one synchronous run, all in
    the abort state the writer started in, so an abort cannot fire
    between them.  For every response, streamed or not, this holds for
    the status line and the headers. *)
Theorem plain_response_written_at_once (fires : nat -> bool) (st : N)
    (txt : string) (hs : list (string * string)) (bytes : option chunk)
    (b : option ResponseBody) (s : TaskState) :
  let response b :=
    {| status := st; statusText := txt; headers := hs; body := b |} in
  respond fires (response (Uint8Array <$> bytes)) s
  = (Returned tt,
     {| aborted := aborted s;
        suspensions := suspensions s;
        trace := trace s
                 ++ map (EvSink (aborted s))
                        (WriteStatus (status_line (response None))
                         :: header_calls hs ++ [End bytes]) |}) ∧
  ∃ rest,
    trace (snd (respond fires (response b) s))
    = trace s
      ++ map (EvSink (aborted s))
             (WriteStatus (status_line (response None)) :: header_calls hs)
      ++ rest ∧
    sink_calls rest = body_calls b.
Proof.
  intros response.
  assert (issues_at_once
            (sink (WriteStatus (status_line (response None))) ;;
             for_each forward_header hs) tt
            ([WriteStatus (status_line (response None))] ++ header_calls hs))
    as Hpre.
  { apply (at_once_bind _ _ tt tt); [apply at_once_sink|].
    apply at_once_headers. }
  split.
  - assert (issues_at_once (respond fires (response (Uint8Array <$> bytes)))
              tt (([WriteStatus (status_line (response None))]
                   ++ header_calls hs) ++ [End bytes])) as Hall.
    { unfold respond.
      apply (at_once_bind _ _ tt tt [WriteStatus _]
               (header_calls hs ++ [End bytes])); [apply at_once_sink|].
      apply (at_once_bind _ _ tt tt (header_calls hs) [End bytes]);
        [apply at_once_headers|].
      destruct bytes; apply at_once_sink. }
    rewrite Hall. by rewrite <- (assoc_L (++)).
  - unfold respond.
    change (sink (WriteStatus (status_line (response b))) ;;
            for_each forward_header (headers (response b)) ;;
            match body (response b) with
            | Some (Uint8Array bytes0) => sink (End (Some bytes0))
            | Some (AsyncIterable chunks failure) =>
                for_await fires chunks failure (fun c => sink (Write c)) ;;
                sink (End None)
            | None => sink (End None)
            end)
      with (bind (sink (WriteStatus (status_line (response None))))
              (fun _ => bind (for_each forward_header hs)
                 (fun _ => match b with
                    | Some (Uint8Array bytes0) => sink (End (Some bytes0))
                    | Some (AsyncIterable chunks failure) =>
                        for_await fires chunks failure
                          (fun c => sink (Write c)) ;;
                        sink (End None)
                    | None => sink (End None)
                    end))).
    unfold bind at 1 2. rewrite at_once_sink. simpl.
    rewrite at_once_headers. simpl.
    match goal with
    | |- context [match b with _ => _ end ?s1] => set (s1' := s1)
    end.
    assert (emits fires
              (match b with
               | Some (Uint8Array bytes0) => sink (End (Some bytes0))
               | Some (AsyncIterable chunks failure) =>
                   for_await fires chunks failure (fun c => sink (Write c)) ;;
                   sink (End None)
               | None => sink (End None)
               end) (respond_result b) (body_calls b)) as Hbody.
    { destruct b as [[bytes0|chunks [e|]]|]; simpl.
      - apply emits_sink.
      - apply emits_bind_thrown. apply (emits_for_await fires chunks (Some e)).
      - apply (emits_bind fires _ _ tt _ (map Write chunks) [End None]);
          [apply (emits_for_await fires chunks None)|apply emits_sink].
      - apply emits_sink. }
    destruct (Hbody s1') as (_ & rest & Ht & Hs & _).
    exists rest. split; [|done]. etransitivity; [exact Ht|].
    unfold s1'. simpl. by rewrite <- !(assoc_L (++)).
Qed.

(** ** The status line *)

Lemma decimal_has_no_space (d : Decimal.uint) (rest : string) :
  split_at_space (NilEmpty.string_of_uint d +:+ " " +:+ rest)
  = (NilEmpty.string_of_uint d, rest).
Proof.
  induction d; simpl; [done|..]; by rewrite IHd.
Qed.

(** X5: the status line can be read back without ambiguity: the text
    before its first space is the decimal status, the text after it is
    the status text, whatever characters the status text contains.  Two
    responses with the same status line have the same status and the same
    status text. *)
Theorem status_line_round_trip (response : Response) :
  read_status_line (status_line response)
  = Some (status response, statusText response) ∧
  ∀ other,
    status_line other = status_line response →
    status other = status response ∧
    statusText other = statusText response.
Proof.
  assert (∀ r, read_status_line (status_line r)
               = Some (status r, statusText r)) as Hread.
  { intros r. unfold read_status_line, status_line, Str.of_N.
    rewrite decimal_has_no_space, NilEmpty.usu.
    by rewrite DecimalN.Unsigned.of_to. }
  split; [apply Hread|].
  intros other Heq. pose proof (Hread other) as Ho.
  rewrite Heq, Hread in Ho. by injection Ho as -> ->.
Qed.

(** ** The request body: more on what the consumer can see *)

Lemma serve_body_bodyless (req : uWS.HttpRequest) (h : store)
    (evs : list event) :
  carries_body (uWS.getMethod req) = false → serve_body req h evs = None.
Proof. intros Hc. unfold serve_body, adapt. by rewrite Hc. Qed.

Lemma open_pull (vs : list Buffer) (s : solo) :
  open_inv vs s →
  open_inv vs (stream_step s Pull) ∧
  Readable.buffer (so_stream (stream_step s Pull)) = [].
Proof.
  intros Ho. split.
  - pose proof (open_step vs s Pull Ho eq_refl) as Ho'.
    simpl pushed_views in Ho'. by rewrite (right_id_L [] (++)) in Ho'.
  - destruct s as [mem [buf e1 d1 x1] [lg fin]].
    destruct Ho as (_ & _ & Hx & Hf & _). simpl in Hx, Hf. subst x1 fin.
    unfold stream_step, Readable.read. simpl. by destruct buf, e1.
Qed.

(** X6: as long as neither a last-flag chunk nor an abort has arrived,
    the body stream stays open whatever the consumer does and whatever
    the transport does to the memory of the chunks: the consumer has seen
    no end-of-stream and no error, it is still waiting, and the views it
    has been handed are a prefix of the views pushed so far; after its
    next turn it has been handed all of them. *)
Theorem open_stream_never_ends (req : uWS.HttpRequest) (h : store)
    (evs : list event) :
  carries_body (uWS.getMethod req) = true →
  forallb still_open evs = true →
  ∃ k k',
    serve_body req h evs = Some k ∧
    Readable.finished k = false ∧
    Readable.count_ends (Readable.log k) = 0 ∧
    Readable.count_errors (Readable.log k) = 0 ∧
    Readable.views_of (Readable.log k) `prefix_of` pushed_views 0 evs ∧
    serve_body req h (evs ++ [Pull]) = Some k' ∧
    Readable.finished k' = false ∧
    Readable.views_of (Readable.log k') = pushed_views 0 evs.
Proof.
  intros Hc Hopen. eexists _, _. split; [by apply serve_body_stream|].
  pose proof (open_from_fresh evs Hopen) as Ho.
  destruct (open_pull _ _ Ho) as [Ho' Hbuf].
  destruct Ho as (_ & _ & _ & Hf & Hb & Hce & Hcx).
  split; [done|]. split; [done|]. split; [done|].
  split; [rewrite <- Hb; by eexists|].
  split; [by apply serve_body_stream|].
  rewrite stream_run_app.
  change (stream_run ?s [Pull]) with (stream_step s Pull).
  destruct Ho' as (_ & _ & _ & Hf' & Hb' & _).
  rewrite Hbuf, (right_id_L [] (++)) in Hb'. done.
Qed.

Lemma open_stream_never_ends_witness :
  ∃ k k',
    serve_body post_request []
      [SockData ["a"; "b"]%byte false; Pull; SockReuse 0 ["X"]%byte;
       SockData ["c"]%byte false]
    = Some k ∧
    Readable.finished k = false ∧
    Readable.count_ends (Readable.log k) = 0 ∧
    Readable.count_errors (Readable.log k) = 0 ∧
    Readable.views_of (Readable.log k)
    `prefix_of` pushed_views 0 [SockData ["a"; "b"]%byte false; Pull;
                                SockReuse 0 ["X"]%byte;
                                SockData ["c"]%byte false] ∧
    serve_body post_request []
      ([SockData ["a"; "b"]%byte false; Pull; SockReuse 0 ["X"]%byte;
        SockData ["c"]%byte false] ++ [Pull])
    = Some k' ∧
    Readable.finished k' = false ∧
    Readable.views_of (Readable.log k')
    = pushed_views 0 [SockData ["a"; "b"]%byte false; Pull;
                      SockReuse 0 ["X"]%byte; SockData ["c"]%byte false].
Proof.
  apply (open_stream_never_ends post_request []
           [SockData ["a"; "b"]%byte false; Pull; SockReuse 0 ["X"]%byte;
            SockData ["c"]%byte false]); reflexivity.
Defined.

Lemma ended_after_last (s : solo) (c : chunk) :
  Readable.ended (so_stream (stream_step s (SockData c true))) = true.
Proof.
  destruct s as [mem [buf e1 d1 x1] k]. simpl.
  destruct c as [|b c], e1, d1; simpl; try done; by destruct x1.
Qed.

Lemma abort_when_ended (s : solo) :
  Readable.ended (so_stream s) = true → stream_step s SockAborted = s.
Proof.
  destruct s as [mem r k]. simpl. intros ->. done.
Qed.

(** X7: an abort that fires after the last-flag chunk changes nothing:
    the second [push(null)] is ignored, so the consumer sees exactly what
    it sees without the abort, whatever came before and whatever comes
    after. *)
Theorem abort_after_last_chunk_is_ignored (req : uWS.HttpRequest)
    (h : store) (pre post : list event) (c : chunk) :
  serve_body req h (pre ++ SockData c true :: SockAborted :: post)
  = serve_body req h (pre ++ SockData c true :: post).
Proof.
  destruct (carries_body (uWS.getMethod req)) eqn:Hc.
  - rewrite !serve_body_stream by done. f_equal. f_equal.
    change (pre ++ SockData c true :: SockAborted :: post)
      with (pre ++ [SockData c true] ++ [SockAborted] ++ post).
    change (pre ++ SockData c true :: post)
      with (pre ++ [SockData c true] ++ post).
    rewrite !stream_run_app.
    set (s := stream_run fresh_solo pre).
    change (stream_run s [SockData c true])
      with (stream_step s (SockData c true)).
    change (stream_run (stream_step s (SockData c true)) [SockAborted])
      with (stream_step (stream_step s (SockData c true)) SockAborted).
    by rewrite abort_when_ended by apply ended_after_last.
  - by rewrite !serve_body_bodyless.
Qed.

(** X8: what arrives after the last-flag chunk is never delivered, and
    it decides how the stream ends only until the consumer's next turn.
    A data-carrying chunk that arrives before that turn is pushed onto the
    ended stream, which fails: the consumer gets an error as its next and
    last observation, never an end-of-stream, and loses what was still
    buffered.  In every other case, also when such a chunk arrives after
    the consumer has taken a turn, the consumer is handed all the views
    pushed up to the last-flag chunk and then the end of the stream,
    once. *)
Theorem chunk_after_last_fails_stream (req : uWS.HttpRequest) (h : store)
    (pre post : list event) (c : chunk) :
  carries_body (uWS.getMethod req) = true →
  forallb still_open pre = true →
  ∃ k0 k,
    serve_body req h pre = Some k0 ∧
    serve_body req h (pre ++ SockData c true :: post ++ [Pull; Pull])
    = Some k ∧
    Readable.finished k = true ∧
    Readable.views_of (Readable.log k)
    `prefix_of` pushed_views 0 (pre ++ [SockData c true]) ∧
    if undisturbed post
    then Readable.views_of (Readable.log k)
         = pushed_views 0 (pre ++ [SockData c true]) ∧
         Readable.count_ends (Readable.log k) = 1 ∧
         Readable.count_errors (Readable.log k) = 0 ∧
         last (Readable.log k) = Some Readable.ObsEnd
    else Readable.log k = Readable.log k0 ++ [Readable.ObsError] ∧
         Readable.count_ends (Readable.log k) = 0 ∧
         Readable.count_errors (Readable.log k) = 1.
Proof.
  intros Hc Hopen. eexists _, _.
  split; [by apply serve_body_stream|].
  split; [by apply serve_body_stream|].
  pose proof (open_from_fresh pre Hopen) as Hpre.
  pose proof Hpre as (_ & _ & _ & _ & _ & Hce & Hcx).
  destruct (open_last _ c _ Hpre) as [Hpend Hlog].
  rewrite stream_run_memory in Hpend.
  change (length (so_memory fresh_solo)) with 0 in Hpend.
  rewrite <- pushed_views_app in Hpend.
  change (pre ++ SockData c true :: post ++ [Pull; Pull])
    with (pre ++ [SockData c true] ++ post ++ [Pull; Pull]).
  rewrite !stream_run_app.
  change (stream_run ?s [SockData c true])
    with (stream_step s (SockData c true)).
  pose proof (seal_outcome post _ _ Hpend) as [Hfin Hout].
  cbn zeta in Hout. rewrite <- stream_run_app.
  split; [done|]. split.
  - destruct Hpend as [Hsealed _].
    apply sealed_run with (evs := post ++ [Pull; Pull]) in Hsealed.
    destruct Hsealed as [_ <-]. by eexists.
  - destruct (undisturbed post); [done|].
    rewrite Hout, Hlog. split; [done|].
    rewrite count_ends_app, count_errors_app, Hce, Hcx. done.
Qed.

Lemma chunk_after_last_fails_stream_witness :
  ∃ k0 k,
    serve_body post_request [] [SockData ["a"]%byte false; Pull] = Some k0 ∧
    serve_body post_request []
      ([SockData ["a"]%byte false; Pull]
       ++ SockData ["b"]%byte true
       :: [SockAborted; SockData ["z"]%byte false; Pull] ++ [Pull; Pull])
    = Some k ∧
    Readable.finished k = true ∧
    Readable.views_of (Readable.log k)
    `prefix_of` pushed_views 0 ([SockData ["a"]%byte false; Pull]
                                ++ [SockData ["b"]%byte true]) ∧
    if undisturbed [SockAborted; SockData ["z"]%byte false; Pull]
    then Readable.views_of (Readable.log k)
         = pushed_views 0 ([SockData ["a"]%byte false; Pull]
                           ++ [SockData ["b"]%byte true]) ∧
         Readable.count_ends (Readable.log k) = 1 ∧
         Readable.count_errors (Readable.log k) = 0 ∧
         last (Readable.log k) = Some Readable.ObsEnd
    else Readable.log k = Readable.log k0 ++ [Readable.ObsError] ∧
         Readable.count_ends (Readable.log k) = 0 ∧
         Readable.count_errors (Readable.log k) = 1.
Proof.
  apply (chunk_after_last_fails_stream post_request []
           [SockData ["a"]%byte false; Pull]
           [SockAborted; SockData ["z"]%byte false; Pull] ["b"]%byte);
    reflexivity.
Defined.

(** On inputs: a late chunk right after the last-flag chunk, and the
    same late chunk after the consumer has taken its turn. *)
Example late_chunk_before_turn :
  serve_body post_request []
    [SockData ["a"]%byte false; SockData ["b"]%byte true;
     SockData ["z"]%byte false; Pull; Pull]
  = Some {| Readable.log := [Readable.ObsError];
            Readable.finished := true |}.
Proof. reflexivity. Qed.

Example late_chunk_after_turn :
  serve_body post_request []
    [SockData ["a"]%byte false; SockData ["b"]%byte true; Pull;
     SockData ["z"]%byte false; Pull]
  = Some {| Readable.log :=
              [Readable.ObsData
                 [{| buf_address := 0; buf_length := 1 |};
                  {| buf_address := 1; buf_length := 1 |}]
                 ["a"; "b"]%byte;
               Readable.ObsEnd];
            Readable.finished := true |}.
Proof. reflexivity. Qed.

(** ** The bytes read when the transport leaves the memory alone *)










(** ** The header mapping: nothing invented, nothing lost *)

Lemma last_written_elem (k v : string) (kvs : list (string * string)) :
  last_written k kvs = Some v → (k, v) ∈ kvs.
Proof.
  induction kvs as [|[k' v'] kvs IH]; simpl; [done|].
  destruct (last_written k kvs) as [w|].
  - intros Hw. apply list_elem_of_further. by apply IH.
  - unfold Str.eqb. case_bool_decide; [|done]. intros [= ->]. subst.
    apply list_elem_of_here.
Qed.

Lemma last_written_some (k v : string) (kvs : list (string * string)) :
  (k, v) ∈ kvs → is_Some (last_written k kvs).
Proof.
  induction kvs as [|[k' v'] kvs IH]; simpl.
  - by intros ?%not_elem_of_nil.
  - intros [Heq|Hin]%elem_of_cons.
    + injection Heq as <- <-.
      destruct (last_written k kvs); [by eexists|].
      unfold Str.eqb. rewrite bool_decide_eq_true_2 by done. by eexists.
    + destruct (IH Hin) as [w ->]. by eexists.
Qed.

(** X9: every entry of the header mapping is a header the socket layer
    reported, with one of the values reported for that name, and every
    reported header name other than [__proto__] is a key of the mapping;
    the mapping has at most as many entries as the request has header
    lines. *)
Theorem headers_nothing_invented_nothing_lost (req : uWS.HttpRequest) :
  (∀ k v, copy_headers req !! k = Some v → (k, v) ∈ uWS.entries req) ∧
  (∀ k v, (k, v) ∈ uWS.entries req → k ≠ "__proto__"%string →
          is_Some (copy_headers req !! k)) ∧
  size (copy_headers req) ≤ length (uWS.wire_headers req).
Proof.
  split; [|split].
  - intros k v. rewrite copy_headers_lookup.
    destruct (Str.eqb k "__proto__"); [done|]. apply last_written_elem.
  - intros k v Hin Hk. rewrite copy_headers_lookup.
    rewrite (proj2 (eqb_false _ _) Hk). by eapply last_written_some.
  - unfold copy_headers, uWS.forEach, uWS.entries.
    rewrite <- (length_map (fun kv => (Str.lower (fst kv), snd kv))).
    generalize (map (fun kv : string * string =>
                       (Str.lower (fst kv), snd kv)) (uWS.wire_headers req)).
    intros kvs.
    assert (∀ m : gmap string string,
              size (foldl (fun acc kv => set_property (fst kv) (snd kv) acc)
                          m kvs) ≤ size m + length kvs) as Hsize.
    { induction kvs as [|[k v] kvs IH]; intros m; simpl; [lia|].
      etransitivity; [apply IH|].
      unfold set_property. simpl. destruct (Str.eqb k "__proto__"); [lia|].
      destruct (m !! k) as [w|] eqn:Hm.
      - rewrite map_size_insert_Some by done. lia.
      - rewrite map_size_insert_None by done. lia. }
    specialize (Hsize ∅). by rewrite map_size_empty in Hsize.
Qed.

(** ** Several requests at once *)

Lemma open_exchange_spec (req : uWS.HttpRequest) (h : store) :
  open_exchange req h
  = if carries_body (uWS.getMethod req)
    then ({| x_res := handlers_of (Some (length h));
             x_body := Some (length h);
             x_memory := [];
             x_consumer := Readable.idle |}, h ++ [Readable.new])
    else ({| x_res := handlers_of None; x_body := None;
             x_memory := [];
             x_consumer := Readable.idle |}, h).
Proof. unfold open_exchange, adapt. by destruct (carries_body _). Qed.

Lemma exchange_step_body (b : ref) (mem : memory) (k : Readable.consumer)
    (h : store) (r : Readable.t) (e : event) :
  h !! b = Some r →
  exchange_step {| x_res := handlers_of (Some b); x_body := Some b;
                   x_memory := mem; x_consumer := k |} h e
  = let s := stream_step {| so_memory := mem; so_stream := r;
                            so_consumer := k |} e in
    (<[b := so_stream s]> h,
     {| x_res := handlers_of (Some b); x_body := Some b;
        x_memory := so_memory s; x_consumer := so_consumer s |}).
Proof.
  intros Hr. unfold exchange_step.
  cbn [x_body x_res x_memory x_consumer handlers_of].
  change (step ?res b ?w e) with (run res b w [e]).
  by rewrite (run_stream_run b [e] h mem r k Hr).
Qed.

(** What one event does to the server, for a request that is pending:
    only that request's entry and, if it has one, its own stream
    change. *)
Lemma server_step_deliver (s : server) (i : nat) (x : exchange)
    (e : event) :
  server_inv s → s_exchanges s !! i = Some x →
  ∃ x' h',
    server_step s (Deliver i e)
    = {| s_store := h'; s_exchanges := <[i := x']> (s_exchanges s) |} ∧
    x_res x' = x_res x ∧ x_body x' = x_body x ∧
    length h' = length (s_store s) ∧
    match x_body x with
    | Some b =>
        ∃ r, s_store s !! b = Some r ∧
             let so := stream_step {| so_memory := x_memory x;
                                      so_stream := r;
                                      so_consumer := x_consumer x |} e in
             h' = <[b := so_stream so]> (s_store s) ∧
             x_memory x' = so_memory so ∧
             x_consumer x' = so_consumer so
    | None => h' = s_store s
    end.
Proof.
  intros [Hwf _] Hx. destruct (Hwf i x Hx) as [Hres Hlt].
  unfold server_step. rewrite Hx.
  destruct x as [res body mem k]. simpl in *. subst res.
  destruct body as [b|].
  - destruct (lookup_lt_is_Some_2 (s_store s) b (Hlt b eq_refl)) as [r Hr].
    rewrite (exchange_step_body b mem k _ r e Hr). cbn zeta.
    eexists _, _. split; [done|]. simpl.
    split; [done|]. split; [done|].
    split; [by rewrite length_insert|]. by exists r.
  - unfold exchange_step. simpl.
    destruct e; simpl; eexists _, _; (split; [done|]); done.
Qed.

Lemma server_inv_step (s : server) (ev : server_event) :
  server_inv s → server_inv (server_step s ev).
Proof.
  intros Hinv. destruct ev as [req|i e].
  - destruct Hinv as [Hwf Hdist]. simpl. rewrite open_exchange_spec.
    destruct (carries_body _); simpl; split.
    + intros i x [Hx|[Hi Hx]]%lookup_app_Some.
      * destruct (Hwf i x Hx) as [Hres Hlt]. split; [done|].
        intros b Hb. cbn [s_store]. rewrite length_app. simpl.
        specialize (Hlt b Hb). lia.
      * apply list_lookup_singleton_Some in Hx as [_ <-]. simpl.
        split; [done|]. intros b [= <-]. cbn [s_store].
        rewrite length_app. simpl. lia.
    + intros i j xi xj b Hi Hj Hbi Hbj.
      apply lookup_app_Some in Hi as [Hi|[Hli Hi]];
        apply lookup_app_Some in Hj as [Hj|[Hlj Hj]].
      * by eapply Hdist.
      * apply list_lookup_singleton_Some in Hj as [Hj0 <-].
        simpl in Hbj. injection Hbj as <-.
        destruct (Hwf i xi Hi) as [_ Hlt]. specialize (Hlt _ Hbi). lia.
      * apply list_lookup_singleton_Some in Hi as [Hi0 <-].
        simpl in Hbi. injection Hbi as <-.
        destruct (Hwf j xj Hj) as [_ Hlt]. specialize (Hlt _ Hbj). lia.
      * apply list_lookup_singleton_Some in Hi as [Hi0 _].
        apply list_lookup_singleton_Some in Hj as [Hj0 _]. lia.
    + intros i x [Hx|[Hi Hx]]%lookup_app_Some.
      * by apply (Hwf i x).
      * apply list_lookup_singleton_Some in Hx as [_ <-]. simpl.
        split; [done|]. by intros b.
    + intros i j xi xj b Hi Hj Hbi Hbj.
      apply lookup_app_Some in Hi as [Hi|[Hli Hi]];
        apply lookup_app_Some in Hj as [Hj|[Hlj Hj]].
      * by eapply Hdist.
      * apply list_lookup_singleton_Some in Hj as [Hj0 <-]. done.
      * apply list_lookup_singleton_Some in Hi as [Hi0 <-]. done.
      * apply list_lookup_singleton_Some in Hi as [Hi0 _].
        apply list_lookup_singleton_Some in Hj as [Hj0 _]. lia.
  - destruct (s_exchanges s !! i) as [x|] eqn:Hx.
    2:{ unfold server_step. by rewrite Hx. }
    destruct (server_step_deliver s i x e Hinv Hx)
      as (x' & h' & -> & Hres' & Hbody' & Hlen & _).
    destruct Hinv as [Hwf Hdist].
    assert (∀ j y, <[i := x']> (s_exchanges s) !! j = Some y →
                   ∃ y0, s_exchanges s !! j = Some y0 ∧
                         x_res y = x_res y0 ∧ x_body y = x_body y0) as Hold.
    { intros j y Hy. destruct (decide (i = j)) as [<-|Hne].
      - rewrite list_lookup_insert_eq in Hy
          by (by eapply lookup_lt_Some).
        injection Hy as <-. by exists x.
      - rewrite list_lookup_insert_ne in Hy by done. by exists y. }
    split; simpl.
    + intros j y Hy. destruct (Hold j y Hy) as (y0 & Hy0 & -> & ->).
      rewrite Hlen. by apply (Hwf j y0).
    + intros j1 j2 y1 y2 b' Hy1 Hy2 Hb1 Hb2.
      destruct (Hold j1 y1 Hy1) as (z1 & Hz1 & _ & Hzb1).
      destruct (Hold j2 y2 Hy2) as (z2 & Hz2 & _ & Hzb2).
      rewrite Hzb1 in Hb1. rewrite Hzb2 in Hb2.
      by eapply Hdist.
Qed.

Lemma server_step_length (s : server) (ev : server_event) :
  length (s_exchanges (server_step s ev))
  = match ev with
    | Arrive _ => S (length (s_exchanges s))
    | Deliver _ _ => length (s_exchanges s)
    end.
Proof.
  destruct ev as [req|i e]; simpl.
  - destruct (open_exchange req (s_store s)) as [x h]. simpl.
    rewrite length_app. simpl. lia.
  - destruct (s_exchanges s !! i) as [x|]; [|done].
    destruct (exchange_step x (s_store s) e) as [h x']. simpl.
    by rewrite length_insert.
Qed.

Lemma holds_arrive_old (s : server) (req : uWS.HttpRequest) (i : nat)
    (o : option solo) :
  holds s i o → holds (server_step s (Arrive req)) i o.
Proof.
  intros (x & Hx & Ho). exists x. simpl. rewrite open_exchange_spec.
  destruct (carries_body _); simpl.
  - split; [by apply lookup_app_l_Some|].
    destruct o as [so|]; [|done].
    destruct Ho as (b & Hb & Hr & Hm & Hk). exists b.
    split; [done|]. split; [|done]. by apply lookup_app_l_Some.
  - split; [by apply lookup_app_l_Some|done].
Qed.

Lemma holds_arrive_new (s : server) (req : uWS.HttpRequest) :
  holds (server_step s (Arrive req)) (length (s_exchanges s))
    (if carries_body (uWS.getMethod req) then Some fresh_solo else None).
Proof.
  unfold holds. simpl. rewrite open_exchange_spec.
  destruct (carries_body _); simpl; eexists.
  - split; [apply list_lookup_middle; done|].
    exists (length (s_store s)). split; [done|].
    split; [|done]. by apply list_lookup_middle.
  - split; [apply list_lookup_middle; done|done].
Qed.

Lemma holds_deliver (s : server) (i j : nat) (e : event)
    (o : option solo) :
  server_inv s → holds s i o →
  holds (server_step s (Deliver j e)) i
    (if bool_decide (j = i) then (fun so => stream_step so e) <$> o
     else o).
Proof.
  intros Hinv (x & Hx & Ho).
  destruct (s_exchanges s !! j) as [xj|] eqn:Hxj.
  2:{ unfold server_step. rewrite Hxj.
      rewrite bool_decide_eq_false_2 by congruence. by exists x. }
  destruct (server_step_deliver s j xj e Hinv Hxj)
    as (x' & h' & -> & Hres' & Hbody' & Hlen & Hcase).
  destruct Hinv as [Hwf Hdist].
  case_bool_decide as Hji.
  - subst j. assert (xj = x) as -> by congruence.
    exists x'. simpl.
    split; [apply list_lookup_insert_eq; by eapply lookup_lt_Some|].
    destruct o as [[mem r k]|]; simpl.
    + destruct Ho as (b & Hb & Hr & Hm & Hk). simpl in Hr, Hm, Hk.
      rewrite Hb in Hcase. destruct Hcase as (r' & Hr' & Hcase).
      cbn zeta in Hcase. destruct Hcase as (-> & Hm' & Hk').
      assert (r' = r) as -> by congruence.
      subst mem k.
      exists b. rewrite Hbody'. split; [done|].
      split; [apply list_lookup_insert_eq; by eapply lookup_lt_Some|].
      done.
    + by rewrite Hbody'.
  - exists x. simpl. split; [by rewrite list_lookup_insert_ne|].
    destruct o as [so|]; [|done].
    destruct Ho as (b & Hb & Hr & Hm & Hk). exists b.
    split; [done|]. split; [|done].
    destruct (x_body xj) as [bj|] eqn:Hbj.
    + destruct Hcase as (r' & Hr' & Hcase).
      cbn zeta in Hcase. destruct Hcase as (-> & _).
      rewrite list_lookup_insert_ne; [done|].
      intros <-. apply Hji. by eapply (Hdist j i xj x bj).
    + by rewrite Hcase.
Qed.

Lemma holds_lt (s : server) (i : nat) (o : option solo) :
  holds s i o → i < length (s_exchanges s).
Proof. intros (x & Hx & _). by eapply lookup_lt_Some. Qed.

(** A pending request sees the events delivered to it, and only those,
    whatever else the server does. *)
Lemma holds_run (sched : list server_event) :
  ∀ (s : server) (i : nat) (o : option solo),
    server_inv s → holds s i o →
    holds (server_run s sched) i
      ((fun so =>
          stream_run so (delivered_to (length (s_exchanges s)) i sched))
       <$> o).
Proof.
  induction sched as [|ev sched IH]; intros s i o Hinv Ho.
  - simpl. by destruct o as [so|].
  - pose proof (holds_lt s i o Ho) as Hlt.
    pose proof (server_inv_step s ev Hinv) as Hinv'.
    pose proof (server_step_length s ev) as Hlen.
    change (server_run s (ev :: sched))
      with (server_run (server_step s ev) sched).
    destruct ev as [req|j e].
    + specialize (IH _ i o Hinv' (holds_arrive_old s req i o Ho)).
      rewrite Hlen in IH. exact IH.
    + specialize (IH _ i _ Hinv' (holds_deliver s i j e o Hinv Ho)).
      rewrite Hlen in IH. simpl.
      case_bool_decide as Hji.
      * rewrite bool_decide_eq_true_2 by done.
        by destruct o as [so|].
      * rewrite bool_decide_eq_false_2 by (by intros [? _]). exact IH.
Qed.

Lemma holds_newcomer (sched : list server_event) :
  ∀ (s : server) (i : nat) (req : uWS.HttpRequest),
    server_inv s → arrivals sched !! i = Some req →
    holds (server_run s sched) (length (s_exchanges s) + i)
      (if carries_body (uWS.getMethod req)
       then Some (stream_run fresh_solo
                    (delivered_to (length (s_exchanges s))
                                  (length (s_exchanges s) + i) sched))
       else None).
Proof.
  induction sched as [|ev sched IH]; intros s i req Hinv Hreq; [done|].
  pose proof (server_inv_step s ev Hinv) as Hinv'.
  pose proof (server_step_length s ev) as Hlen.
  change (server_run s (ev :: sched))
    with (server_run (server_step s ev) sched).
  destruct ev as [req'|j e].
  - destruct i as [|i]; simpl in Hreq.
    + injection Hreq as ->.
      pose proof (holds_run sched _ _ _ Hinv' (holds_arrive_new s req))
        as Hrun.
      rewrite Hlen in Hrun. rewrite Nat.add_0_r. simpl.
      by destruct (carries_body _).
    + specialize (IH _ i req Hinv' Hreq). rewrite Hlen in IH.
      replace (length (s_exchanges s) + S i)
        with (S (length (s_exchanges s)) + i) by lia.
      exact IH.
  - specialize (IH _ i req Hinv' Hreq). rewrite Hlen in IH. simpl.
    rewrite bool_decide_eq_false_2 by lia. exact IH.
Qed.

Lemma idle_server_inv : server_inv idle_server.
Proof. split; [by intros i x ?|by intros i j xi xj b ?]. Qed.

(** X10: requests handled at the same time do not interfere.  Whatever
    the order in which requests arrive and socket events and consumer
    turns of the different requests interleave, the consumer of each
    request's body sees exactly what it would see if the events delivered
    to that request were the only ones on the server; a request without a
    body has no consumer. *)
Theorem concurrent_requests_do_not_interfere (sched : list server_event)
    (i : nat) (req : uWS.HttpRequest) :
  arrivals sched !! i = Some req →
  ∃ x,
    s_exchanges (server_run idle_server sched) !! i = Some x ∧
    observed x = serve_body req [] (delivered_to 0 i sched).
Proof.
  intros Hreq.
  destruct (holds_newcomer sched idle_server i req idle_server_inv Hreq)
    as (x & Hx & Ho).
  simpl in Hx, Ho. exists x. split; [done|]. unfold observed.
  destruct (carries_body (uWS.getMethod req)) eqn:Hc.
  - destruct Ho as (b & -> & _ & _ & ->). by rewrite serve_body_stream.
  - rewrite Ho. by rewrite serve_body_bodyless.
Qed.

Lemma concurrent_requests_do_not_interfere_witness :
  ∃ x,
    s_exchanges
      (server_run idle_server
         [Arrive post_request; Deliver 0 (SockData ["a"]%byte false);
          Arrive get_request; Arrive post_request;
          Deliver 2 (SockData ["x"]%byte false); Deliver 1 SockAborted;
          Deliver 0 SockAborted; Deliver 2 Pull;
          Deliver 2 (SockData ["y"]%byte true); Deliver 0 Pull;
          Deliver 2 Pull; Deliver 2 Pull]) !! 2 = Some x ∧
    observed x
    = serve_body post_request []
        (delivered_to 0 2
           [Arrive post_request; Deliver 0 (SockData ["a"]%byte false);
            Arrive get_request; Arrive post_request;
            Deliver 2 (SockData ["x"]%byte false); Deliver 1 SockAborted;
            Deliver 0 SockAborted; Deliver 2 Pull;
            Deliver 2 (SockData ["y"]%byte true); Deliver 0 Pull;
            Deliver 2 Pull; Deliver 2 Pull]).
Proof.
  apply (concurrent_requests_do_not_interfere
           [Arrive post_request; Deliver 0 (SockData ["a"]%byte false);
            Arrive get_request; Arrive post_request;
            Deliver 2 (SockData ["x"]%byte false); Deliver 1 SockAborted;
            Deliver 0 SockAborted; Deliver 2 Pull;
            Deliver 2 (SockData ["y"]%byte true); Deliver 0 Pull;
            Deliver 2 Pull; Deliver 2 Pull] 2 post_request).
  reflexivity.
Defined.

Example concurrent_bodies_kept_apart :
  map observed
    (s_exchanges
       (server_run idle_server
          [Arrive post_request; Deliver 0 (SockData ["a"]%byte false);
           Arrive get_request; Arrive post_request;
           Deliver 2 (SockData ["x"]%byte false); Deliver 1 SockAborted;
           Deliver 0 SockAborted; Deliver 2 Pull;
           Deliver 2 (SockData ["y"]%byte true); Deliver 0 Pull;
           Deliver 2 Pull; Deliver 2 Pull; Deliver 0 Pull]))
  = [Some {| Readable.log :=
               [Readable.ObsData [{| buf_address := 0; buf_length := 1 |}]
                  ["a"]%byte;
                Readable.ObsEnd];
             Readable.finished := true |};
     None;
     Some {| Readable.log :=
               [Readable.ObsData [{| buf_address := 0; buf_length := 1 |}]
                  ["x"]%byte;
                Readable.ObsData [{| buf_address := 1; buf_length := 1 |}]
                  ["y"]%byte;
                Readable.ObsEnd];
             Readable.finished := true |}].
Proof. reflexivity. Qed.

(** ** What an outcome of [onSubscribe] tells its caller *)

Section BridgeOutcomes.

Context {Schema Document ContextValue GraphQLError Variables Ctx : Type}.

(** X11: the three outcomes of [onSubscribe] exclude each other and can
    be read backwards.  A returned error list is never empty and is the
    whole result of validating the parsed query.  Returned arguments have
    passed validation against the schema they carry; they hold the
    document parsed from the client's query, the client's operation name
    and variables unchanged, and the context value the factory produced.
    An exception comes from the parser or from the context factory. *)
Theorem onSubscribe_outcomes
    (yoga : @Yoga Schema Document ContextValue GraphQLError Ctx)
    (ctx : Ctx) (msg : @SubscribeMessage Variables)
    (l : list (@BridgeEvent Schema Document ContextValue GraphQLError
                 Variables Ctx)) :
  let env := getEnveloped yoga ctx in
  let q := p_query (payload msg) in
  match fst (wsHandler_onSubscribe yoga ctx msg l) with
  | Returned (inl errors) =>
      errors ≠ [] ∧
      ∃ doc, env_parse env q = Returned doc ∧
             errors = env_validate env (env_schema env) doc
  | Returned (inr args) =>
      env_parse env q = Returned (document args) ∧
      env_contextFactory env = Returned (contextValue args) ∧
      env_validate env (schema args) (document args) = [] ∧
      schema args = env_schema env ∧
      operationName args = p_operationName (payload msg) ∧
      variableValues args = p_variables (payload msg)
  | Thrown e =>
      env_parse env q = Thrown e ∨
      ((∃ doc, env_parse env q = Returned doc) ∧
       env_contextFactory env = Thrown e)
  end.
Proof.
  intros env q. rewrite onSubscribe_run. fold env. fold q.
  destruct (env_parse env q) as [doc|e] eqn:Hp; simpl; [|by left].
  destruct (env_contextFactory env) as [cv|e] eqn:Hc; simpl.
  - destruct (env_validate env (env_schema env) doc) as [|err errs] eqn:Hv.
    + simpl. by rewrite Hv.
    + split; [done|]. exists doc. by rewrite Hv.
  - right. split; [by exists doc|done].
Qed.

End BridgeOutcomes.

(** ** Streamed bodies are forwarded chunk by chunk *)

Lemma course_app (t t' : list TaskEvent) :
  course (t ++ t') = course t ++ course t'.
Proof. apply omap_app. Qed.

Lemma course_calls (a : bool) (cs : list SinkCall) :
  course (map (EvSink a) cs) = map Calls cs.
Proof. induction cs as [|c cs IH]; [done|]. simpl. by rewrite <- IH. Qed.

Lemma for_await_cons (fires : nat -> bool) (c : chunk)
    (chunks : list chunk) (failure : option Exn) (s : TaskState) :
  for_await fires (c :: chunks) failure (fun c => sink (Write c)) s
  = for_await fires chunks failure (fun c => sink (Write c))
      {| aborted := aborted s || fires (suspensions s);
         suspensions := S (suspensions s);
         trace := (trace s ++ [EvSuspend])
                  ++ [EvSink (aborted s || fires (suspensions s))
                        (Write c)] |}.
Proof. reflexivity. Qed.

Lemma for_await_course (fires : nat -> bool) (chunks : list chunk)
    (failure : option Exn) :
  ∀ s,
    fst (for_await fires chunks failure (fun c => sink (Write c)) s)
    = match failure with Some e => Thrown e | None => Returned tt end ∧
    course (trace (snd (for_await fires chunks failure
                         (fun c => sink (Write c)) s)))
    = course (trace s)
      ++ flat_map (fun c => [Waits; Calls (Write c)]) chunks ++ [Waits].
Proof.
  induction chunks as [|c chunks IH]; intros s.
  - simpl. unfold bind, suspend. simpl.
    destruct failure; simpl; by rewrite course_app.
  - rewrite for_await_cons. destruct (IH
      {| aborted := aborted s || fires (suspensions s);
         suspensions := S (suspensions s);
         trace := (trace s ++ [EvSuspend])
                  ++ [EvSink (aborted s || fires (suspensions s))
                        (Write c)] |}) as [Hr Hc].
    split; [done|]. rewrite Hc. cbn [trace flat_map].
    rewrite !course_app. simpl. by rewrite <- !(assoc_L (++)).
Qed.

(** X12: a streamed body is forwarded chunk by chunk as it is produced.
    After the status line and the headers, issued at once, the writer
    waits for a chunk, writes it, and only then waits for the next one; it
    terminates the exchange after the wait in which the body completes,
    and does not terminate it when that wait ends in a rejection. *)
Theorem streamed_body_forwarded_chunk_by_chunk (fires : nat -> bool)
    (st : N) (txt : string) (hs : list (string * string))
    (chunks : list chunk) (failure : option Exn) (s : TaskState) :
  let response :=
    {| status := st; statusText := txt; headers := hs;
       body := Some (AsyncIterable chunks failure) |} in
  course (trace (snd (respond fires response s)))
  = course (trace s)
    ++ Calls (WriteStatus (status_line response))
    :: map Calls (header_calls hs)
    ++ flat_map (fun c => [Waits; Calls (Write c)]) chunks
    ++ Waits :: match failure with
                | Some _ => []
                | None => [Calls (End None)]
                end.
Proof.
  intros response. unfold respond.
  cbn [body headers response].
  unfold bind at 1 2. rewrite at_once_sink. cbn beta iota.
  rewrite at_once_headers. cbn beta iota.
  unfold bind.
  match goal with
  | |- context [for_await fires chunks failure _ ?s1] =>
      destruct (for_await_course fires chunks failure s1) as [Hr Hc];
      destruct (for_await fires chunks failure _ s1) as [r s2]
  end.
  simpl in Hr, Hc. subst r.
  destruct failure as [e|]; simpl.
  - rewrite Hc. cbn [trace]. rewrite !course_app, !course_calls. simpl.
    by rewrite <- !(assoc_L (++)).
  - rewrite course_app, Hc. cbn [trace].
    rewrite !course_app, !course_calls. simpl.
    by rewrite <- !(assoc_L (++)).
Qed.

Example streamed_course :
  course (trace (snd (respond (fun _ => false)
                        (ok_response [("x-a", "1")]%string
                           (Some (AsyncIterable [["a"]; ["b"]]%byte None)))
                        start)))
  = [Calls (WriteStatus "200 OK"); Calls (WriteHeader "x-a" "1");
     Waits; Calls (Write ["a"]%byte); Waits; Calls (Write ["b"]%byte);
     Waits; Calls (End None)].
Proof. reflexivity. Qed.
